(** * Audio.cpp: jitter-compensated ring buffer, output callback and session start

    A shallow embedding of [src/Source/Audio.cpp].  Pointers into the ring
    buffer's sample store are modelled as offsets from [ringBuffer->buffer]
    (so [buffer + k] is the integer [k] and [NULL] is [None]); samples are
    [int16_t] values carried as [Z]; [memcpy]/[memset] are partial: an access
    outside the source or destination array is undefined behaviour in C and
    is [None] here. *)

From stdpp Require Import base decidable option numbers list list_numbers strings.
From Stdlib Require Import SpecFloat.

Local Open Scope Z_scope.

(** ** Constants (Audio.cpp lines 18-39) *)

Definition sizeof_int16_t : Z := 2.

Definition BUFFER_LENGTH_BYTES : Z := 1024.
Definition BUFFER_LENGTH_SAMPLES : Z := BUFFER_LENGTH_BYTES `quot` sizeof_int16_t.

Definition PACKET_LENGTH_BYTES : Z := 1024.
Definition PACKET_LENGTH_SAMPLES : Z := PACKET_LENGTH_BYTES `quot` sizeof_int16_t.

Definition PHASE_DELAY_AT_90 : Z := 20.

Definition RING_BUFFER_FRAMES : Z := 4.
Definition RING_BUFFER_SIZE_SAMPLES : Z := RING_BUFFER_FRAMES * BUFFER_LENGTH_SAMPLES.

Definition JITTER_BUFFER_LENGTH_MSECS : Z := 3.
Definition SAMPLE_RATE : Z := 22050.

Definition NUM_AUDIO_SOURCES : Z := 2.

(** [short jitterBufferSamples = JITTER_BUFFER_LENGTH_MSECS * (SAMPLE_RATE / 1000)]
    (line 247): the division is C integer division. *)
Definition jitterBufferSamples : Z :=
  JITTER_BUFFER_LENGTH_MSECS * (SAMPLE_RATE `quot` 1000).

(** ** Memory primitives *)

(** [memcpy(dst + d, src + s, n * sizeof(int16_t))]. *)
Definition memcpy (dst : list Z) (d : Z) (src : list Z) (s n : Z) : option (list Z) :=
  if decide (0 ≤ d ∧ 0 ≤ s ∧ 0 ≤ n ∧
             d + n ≤ Z.of_nat (length dst) ∧ s + n ≤ Z.of_nat (length src))
  then Some (list_inserts (Z.to_nat d) (take (Z.to_nat n) (drop (Z.to_nat s) src)) dst)
  else None.

(** [memset(dst + d, 0, n * sizeof(int16_t))]. *)
Definition memset0 (dst : list Z) (d n : Z) : option (list Z) :=
  if decide (0 ≤ d ∧ 0 ≤ n ∧ d + n ≤ Z.of_nat (length dst))
  then Some (list_inserts (Z.to_nat d) (replicate (Z.to_nat n) 0) dst)
  else None.

(** The [n] samples stored from offset [d] on: what a reader sees there. *)
Definition samplesAt (l : list Z) (d n : Z) : list Z :=
  take (Z.to_nat n) (drop (Z.to_nat d) l).

(** ** The ring buffer *)

Record AudioRingBuffer : Type := mkRing {
  buffer : list Z;              (* the sample store *)
  nextOutput : Z;               (* read cursor, offset from [buffer] *)
  endOfLastWrite : option Z     (* write frontier, [None] is NULL *)
}.

Definition set_nextOutput (n : Z) (rb : AudioRingBuffer) : AudioRingBuffer :=
  mkRing (buffer rb) n (endOfLastWrite rb).
Definition set_endOfLastWrite (e : option Z) (rb : AudioRingBuffer) : AudioRingBuffer :=
  mkRing (buffer rb) (nextOutput rb) e.

Definition capacity (rb : AudioRingBuffer) : Z := Z.of_nat (length (buffer rb)).

(** Modelled from the spec: the constructor [AudioRingBuffer(ringBufferSamples)]
    lives in AudioRingBuffer.cpp, which is missing here.  The spec's data model
    gives a store of fixed capacity, a read cursor and a write frontier whose
    unset value means "empty, needs jitter cushion"; a fresh buffer is empty
    with the read cursor at the store start.  [new int16_t[n]] leaves the
    samples unspecified, so they are an argument. *)
Definition AudioRingBuffer_new (contents : list Z) : AudioRingBuffer :=
  mkRing contents 0 None.

(** Modelled from the spec: [bufferOverlap(writeCursor, length)] (missing
    AudioRingBuffer.cpp) "returns how many of the next [length] samples
    written starting at [writeCursor] would spill past the end of the store
    back to its start (0 if none)". *)
Definition bufferOverlap (rb : AudioRingBuffer) (pointer addedDistance : Z) : Z :=
  Z.max 0 (pointer + addedDistance - capacity rb).

(** Modelled from the spec: [diffLastWriteNextOutput()] (missing
    AudioRingBuffer.cpp) is the "distance (mod capacity) from [nextOutput]
    to [endOfLastWrite]".  Audio.cpp calls it only behind a check that the
    frontier is set; the value chosen for an unset frontier is never used. *)
Definition diffLastWriteNextOutput (rb : AudioRingBuffer) : Z :=
  match endOfLastWrite rb with
  | Some e => (e - nextOutput rb) `mod` capacity rb
  | None => 0
  end.

(** ** The receiver (receiveAudioViaUDP, lines 223-269) *)

(** [bool needsJitterBuffer] once lines 226-231 have run. *)
Definition needsJitterBuffer (rb : AudioRingBuffer) : bool :=
  match endOfLastWrite rb with
  | None => true
  | Some _ =>
      bool_decide (diffLastWriteNextOutput rb > RING_BUFFER_SIZE_SAMPLES - PACKET_LENGTH_SAMPLES)
  end.

(** Lines 245-254: silence for the jitter buffer, then the packet. *)
Definition injectJitterBuffer (rb : AudioRingBuffer) (copyToPointer : Z)
    (receivedData : list Z) : option AudioRingBuffer :=
  b1 ← memset0 (buffer rb) copyToPointer jitterBufferSamples;
  b2 ← memcpy b1 (copyToPointer + jitterBufferSamples) receivedData 0 PACKET_LENGTH_SAMPLES;
  Some (mkRing b2 (nextOutput rb) (Some (0 + PACKET_LENGTH_SAMPLES + jitterBufferSamples))).

(** Lines 256-259: no jitter buffer, no overlap. *)
Definition appendPacket (rb : AudioRingBuffer) (copyToPointer : Z)
    (receivedData : list Z) : option AudioRingBuffer :=
  b1 ← memcpy (buffer rb) copyToPointer receivedData 0 PACKET_LENGTH_SAMPLES;
  Some (mkRing b1 (nextOutput rb) ((λ e, e + PACKET_LENGTH_SAMPLES) <$> endOfLastWrite rb)).

(** Lines 262-268: no jitter buffer, but overlap. *)
Definition wrapPacket (rb : AudioRingBuffer) (copyToPointer bufferSampleOverlap : Z)
    (receivedData : list Z) : option AudioRingBuffer :=
  b1 ← memcpy (buffer rb) copyToPointer receivedData 0
         (PACKET_LENGTH_SAMPLES - bufferSampleOverlap);
  b2 ← memcpy b1 0 receivedData bufferSampleOverlap bufferSampleOverlap;
  Some (mkRing b2 (nextOutput rb) (Some (0 + bufferSampleOverlap))).

(** One iteration of the receive loop whose [receive] call succeeded;
    [receivedData] is the 512-sample array the socket filled. *)
Definition receivePacket (rb : AudioRingBuffer) (receivedData : list Z)
    : option AudioRingBuffer :=
  if needsJitterBuffer rb then
    (* copyToPointer = ringBuffer->buffer; bufferSampleOverlap stays 0 *)
    injectJitterBuffer rb 0 receivedData
  else
    match endOfLastWrite rb with
    | None => None
    | Some copyToPointer =>
        let bufferSampleOverlap := bufferOverlap rb copyToPointer PACKET_LENGTH_SAMPLES in
        if decide (bufferSampleOverlap = 0)
        then appendPacket rb copyToPointer receivedData
        else wrapPacket rb copyToPointer bufferSampleOverlap receivedData
    end.

(** The loop of [receiveAudioViaUDP] over the packets that arrive. *)
Fixpoint receiveAudioViaUDP (packets : list (list Z)) (rb : AudioRingBuffer)
    : option AudioRingBuffer :=
  match packets with
  | [] => Some rb
  | receivedData :: rest => rb' ← receivePacket rb receivedData; receiveAudioViaUDP rest rb'
  end.

(** ** The output callback, relay branch (audioCallback, lines 79-131)

    [ECHO_SERVER_TEST] is 1, so this is the branch the build runs.  The
    callback forwards the captured input (when there is one) to the socket,
    drains one frame of the ring buffer into [samplesToQueue] and copies
    that to both output channels. *)

Record CallbackResult : Type := mkResult {
  cb_ring : AudioRingBuffer;
  outputLeft : list Z;
  outputRight : list Z;
  cb_sent : option (list Z);      (* what [audioSocket->send] was given *)
  cb_stdout : list string         (* lines written to [std::cout] *)
}.

(** [short silentTail] once lines 104-112 have run. *)
Definition silentTail (rb : AudioRingBuffer) (e : Z) : Z :=
  if decide (e - 0 > nextOutput rb - 0 ∧ e - nextOutput rb < BUFFER_LENGTH_SAMPLES)
  then BUFFER_LENGTH_SAMPLES - (e - nextOutput rb)
  else 0.

(** Lines 117-121: advance the read cursor, back to the start at the end. *)
Definition advanceNextOutput (rb : AudioRingBuffer) : AudioRingBuffer :=
  let n := nextOutput rb + BUFFER_LENGTH_SAMPLES in
  set_nextOutput (if decide (n = 0 + RING_BUFFER_SIZE_SAMPLES) then 0 else n) rb.

Definition silence : list Z := replicate (Z.to_nat BUFFER_LENGTH_SAMPLES) 0.

Definition audioCallback (inputLeft : option (list Z)) (rb : AudioRingBuffer)
    : option CallbackResult :=
  let queueBuffer := silence in
  match endOfLastWrite rb with
  | None => Some (mkResult rb queueBuffer queueBuffer inputLeft [])
  | Some e =>
      queueBuffer ← memcpy queueBuffer 0 (buffer rb) (nextOutput rb)
                      (BUFFER_LENGTH_SAMPLES - silentTail rb e);
      let rb1 := advanceNextOutput rb in
      if decide (diffLastWriteNextOutput rb1 < BUFFER_LENGTH_SAMPLES)
      then Some (mkResult (set_endOfLastWrite None rb1) queueBuffer queueBuffer
                          inputLeft ["Starved"%string])
      else Some (mkResult rb1 queueBuffer queueBuffer inputLeft [])
  end.

(** Consecutive callbacks with no packet in between. *)
Fixpoint audioCallbacks (inputs : list (option (list Z))) (rb : AudioRingBuffer)
    : option (list CallbackResult * AudioRingBuffer) :=
  match inputs with
  | [] => Some ([], rb)
  | inputLeft :: rest =>
      r ← audioCallback inputLeft rb;
      '(rs, rb') ← audioCallbacks rest (cb_ring r);
      Some (r :: rs, rb')
  end.

(** ** The two threads, interleaved

    The receiver thread and the device callback share the ring buffer; a run
    of the session is a sequence of packets and callbacks, each handled in
    one piece (the code has no lock; a callback that runs in the middle of a
    packet's handling is outside this model). *)

Inductive Event : Type :=
  | Packet (receivedData : list Z)
  | Callback (inputLeft : option (list Z)).

Definition step (rb : AudioRingBuffer) (ev : Event) : option AudioRingBuffer :=
  match ev with
  | Packet receivedData => receivePacket rb receivedData
  | Callback inputLeft => cb_ring <$> audioCallback inputLeft rb
  end.

(** [receivedData] is always the array of [BUFFER_LENGTH_SAMPLES] samples
    allocated at line 197; a callback may or may not have captured input. *)
Definition wellFormed (ev : Event) : Prop :=
  match ev with
  | Packet receivedData => Z.of_nat (length receivedData) = BUFFER_LENGTH_SAMPLES
  | Callback _ => True
  end.

(** States of a session: the ring built by [Audio::init]
    ([new AudioRingBuffer(RING_BUFFER_SIZE_SAMPLES)]), then any events. *)
Inductive reachable : AudioRingBuffer → Prop :=
  | reachable_new contents :
      Z.of_nat (length contents) = RING_BUFFER_SIZE_SAMPLES →
      reachable (AudioRingBuffer_new contents)
  | reachable_step rb ev rb' :
      reachable rb → wellFormed ev → step rb ev = Some rb' → reachable rb'.

(** ** The output callback, positioned-sources branch (lines 135-183)

    The [else] branch of [audioCallback], taken when [ECHO_SERVER_TEST] is 0.
    The listener geometry of lines 153-160 is single-precision arithmetic on
    positions held outside this file; the sample loop only uses its four
    results, which are the parameters of the section. *)

Record AudioSource : Type := mkSource {
  sourceData : list Z;
  samplePointer : Z;
  lengthInSamples : Z
}.

(** Conversion of an [int] to [int16_t]. *)
Definition wrap16 (z : Z) : Z := (z + 32768) `mod` 65536 - 32768.

(** [a[i]] for a signed index. *)
Definition sampleAt (a : list Z) (i : Z) : option Z :=
  if decide (0 ≤ i) then a !! Z.to_nat i else None.

(** Lines 141-151: pull the next frame of a source into [samplesToQueue]. *)
Definition pullFrame (samplesToQueue : list Z) (source : AudioSource)
    : option (list Z * AudioSource) :=
  let wrapAroundSamples :=
    BUFFER_LENGTH_SAMPLES - (lengthInSamples source - samplePointer source) in
  if decide (wrapAroundSamples ≤ 0) then
    q ← memcpy samplesToQueue 0 (sourceData source) (samplePointer source)
          BUFFER_LENGTH_SAMPLES;
    Some (q, mkSource (sourceData source) (samplePointer source + BUFFER_LENGTH_SAMPLES)
                      (lengthInSamples source))
  else
    q1 ← memcpy samplesToQueue 0 (sourceData source) (samplePointer source)
           (lengthInSamples source - samplePointer source);
    q2 ← memcpy q1 (lengthInSamples source - samplePointer source) (sourceData source) 0
           wrapAroundSamples;
    Some (q2, mkSource (sourceData source) wrapAroundSamples (lengthInSamples source)).

Section Spatialization.

(** [x *= distanceAmpRatio / NUM_AUDIO_SOURCES] on an [int16_t] (line 168). *)
Variable scaleByDistance : Z → Z.
(** [t += x * (distanceAmpRatio * phaseAmpRatio / NUM_AUDIO_SOURCES)]
    on [int16_t]s [t] and [x] (line 180). *)
Variable addPhaseScaled : Z → Z → Z.
(** [int numSamplesDelay = PHASE_DELAY_AT_90 * sinRatio] (line 158). *)
Variable numSamplesDelay : Z.
(** [angleToSource > 0] (lines 164-165). *)
Variable angleToSourcePositive : bool.

Record MixBuffers : Type := mkMix {
  samplesToQueue : list Z;
  leadingOutput : list Z;
  trailingOutput : list Z
}.

(** The body of the sample loop (lines 168-181) at index [i]. *)
Definition mixSample (source : AudioSource) (startPointer : Z) (i : nat)
    (m : MixBuffers) : option MixBuffers :=
  x ← samplesToQueue m !! i;
  let queue := <[i := scaleByDistance x]> (samplesToQueue m) in
  q ← queue !! i;
  l ← leadingOutput m !! i;
  let leading := <[i := wrap16 (l + q)]> (leadingOutput m) in
  t ← trailingOutput m !! i;
  if decide (Z.of_nat i >= numSamplesDelay) then
    qd ← sampleAt queue (Z.of_nat i - numSamplesDelay);
    Some (mkMix queue leading (<[i := wrap16 (t + qd)]> (trailingOutput m)))
  else
    let sampleIndex := startPointer - numSamplesDelay + Z.of_nat i in
    let sampleIndex :=
      if decide (sampleIndex < 0) then sampleIndex + lengthInSamples source
      else sampleIndex in
    s ← sampleAt (sourceData source) sampleIndex;
    Some (mkMix queue leading (<[i := addPhaseScaled t s]> (trailingOutput m))).

(** [for (int i = ...; i < BUFFER_LENGTH_SAMPLES; i++)] over the indices given. *)
Fixpoint mixSamples (source : AudioSource) (startPointer : Z) (indices : list nat)
    (m : MixBuffers) : option MixBuffers :=
  match indices with
  | [] => Some m
  | i :: rest =>
      m' ← mixSample source startPointer i m; mixSamples source startPointer rest m'
  end.

(** One pass of the source loop (lines 136-182) for one source:
    returns the advanced source and the two output channels. *)
Definition mixSource (source : AudioSource) (queue outLeft outRight : list Z)
    : option (AudioSource * list Z * list Z * list Z) :=
  let startPointer := samplePointer source in
  '(queue, source') ← pullFrame queue source;
  let leading := if angleToSourcePositive then outLeft else outRight in
  let trailing := if angleToSourcePositive then outRight else outLeft in
  m ← mixSamples source' startPointer (seq 0 (Z.to_nat BUFFER_LENGTH_SAMPLES))
        (mkMix queue leading trailing);
  Some (source', samplesToQueue m,
        (if angleToSourcePositive then leadingOutput m else trailingOutput m),
        (if angleToSourcePositive then trailingOutput m else leadingOutput m)).

End Spatialization.

(** ** Distance attenuation (audioCallback, line 154)

    [float distanceAmpRatio = powf(0.5, cbrtf(distance * 10))] on
    single-precision values, taken as IEEE binary32: [spec_float] with a
    24-bit mantissa and [emax = 128].  [distance * 10] is the binary32
    product, rounded to nearest; [cbrtf] and [powf] are the C library's,
    whose results the language does not fix, and are the parameters of the
    section. *)

Definition binary32_prec : Z := 24.
Definition binary32_emax : Z := 128.

Definition float_mul : spec_float → spec_float → spec_float :=
  SFmul binary32_prec binary32_emax.


(** The [int] 10 converted to [float]: 1.25 * 2^3. *)
Definition float_10 : spec_float := S754_finite false 10485760 (-20).
(** The literal 0.5 converted to [float]: 2^-1. *)
Definition float_0_5 : spec_float := S754_finite false 8388608 (-24).

Section DistanceAttenuation.

Variable cbrtf : spec_float → spec_float.
Variable powf : spec_float → spec_float → spec_float.

Definition distanceAmpRatio (distance : spec_float) : spec_float :=
  powf float_0_5 (cbrtf (float_mul distance float_10)).

End DistanceAttenuation.






(** ** Session start (Audio::init, lines 291-344) *)

Definition paNoError : Z := 0.

(** What the three PortAudio calls of [init] return. *)
Record PortAudio : Type := mkPortAudio {
  Pa_Initialize : Z;
  Pa_OpenDefaultStream : Z;
  Pa_StartStream : Z
}.

Inductive StderrLine : Type :=
  | FailedToInitialize                 (* "-- Failed to initialize portaudio --" *)
  | PortAudioError (code : Z).         (* "PortAudio error (%d): %s" *)

(** The static members of [Audio] that [init] writes, and [stderr]. *)
Record AudioStatics : Type := mkStatics {
  initialized : bool;
  err : Z;
  stderr : list StderrLine
}.

(** What the static [Audio::data] points to. *)
Inductive DataPointer : Type :=
  | NullPointer        (* the static's initial value *)
  | ObjectFromNew      (* an [AudioData] made by [new AudioData(...)] (lines 297, 310) *)
  | Dangling.          (* an object that was deleted *)

(** How a call of [init] ends: it returns a value, or it runs into the
    undefined [delete[] data] of line 342.  Either way the statics and the
    pointer are given as they are at that point. *)
Inductive InitResult : Type :=
  | InitReturned (st : AudioStatics) (data : DataPointer) (result : bool)
  | InitUndefined (st : AudioStatics) (data : DataPointer).

(** The [error:] label (lines 338-343): the two lines are written and
    [initialized] is cleared, then [delete[] data] runs.  On a null pointer
    it does nothing and [false] is returned; on an object that the
    non-array [new] of line 297 or 310 made, or on a deleted one, it is
    undefined. *)
Definition init_error (st : AudioStatics) (data : DataPointer) : InitResult :=
  let st :=
    mkStatics false (err st) (stderr st ++ [FailedToInitialize; PortAudioError (err st)]) in
  match data with
  | NullPointer => InitReturned st NullPointer false
  | ObjectFromNew | Dangling => InitUndefined st data
  end.

Definition init (pa : PortAudio) (st : AudioStatics) (data : DataPointer) : InitResult :=
  let st := mkStatics (initialized st) (Pa_Initialize pa) (stderr st) in
  if decide (err st ≠ paNoError) then init_error st data else
  (* lines 297 and 310: [data = new AudioData(...)] in either mode *)
  let data := ObjectFromNew in
  let st := mkStatics (initialized st) (Pa_OpenDefaultStream pa) (stderr st) in
  if decide (err st ≠ paNoError) then init_error st data else
  let st := mkStatics true (err st) (stderr st) in
  (* line 334: [Pa_StartStream(stream);] runs, its result is not stored *)
  let _ := Pa_StartStream pa in
  if decide (err st ≠ paNoError) then init_error st data else
  (* [return paNoError;] from a function returning [bool] *)
  InitReturned st data (bool_decide (paNoError ≠ 0)).

(** ** Session invariants *)

(** A frame-aligned cursor: a multiple of the frame size inside the store. *)
Definition aligned (n : Z) : Prop :=
  (BUFFER_LENGTH_SAMPLES | n) ∧ 0 ≤ n < RING_BUFFER_SIZE_SAMPLES.

(** Where the frontier can be: a cushion, then whole packets. *)
Definition frontierOk (e : Z) : Prop :=
  ∃ k, 0 ≤ k < RING_BUFFER_FRAMES ∧ e = jitterBufferSamples + PACKET_LENGTH_SAMPLES * k.

Definition ringInv (rb : AudioRingBuffer) : Prop :=
  capacity rb = RING_BUFFER_SIZE_SAMPLES ∧
  aligned (nextOutput rb) ∧
  ∀ e, endOfLastWrite rb = Some e → frontierOk e.

(** A run of the session from a given state. *)
Fixpoint run (events : list Event) (rb : AudioRingBuffer) : option AudioRingBuffer :=
  match events with
  | [] => Some rb
  | ev :: rest => rb' ← step rb ev; run rest rb'
  end.

(** ** Sample sessions *)

(** A store whose unspecified initial samples are all 7. *)
Definition staleStore : list Z := replicate (Z.to_nat RING_BUFFER_SIZE_SAMPLES) 7.

(** A packet of 512 equal samples, and one of 512 distinct samples 1..512. *)
Definition flatPacket (v : Z) : list Z := replicate (Z.to_nat PACKET_LENGTH_SAMPLES) v.
Definition rampPacket : list Z := seqZ 1 PACKET_LENGTH_SAMPLES.

(** The store after packets 1, 2 and 3 arrived into a fresh ring. *)
Definition storeAfter3 : list Z :=
  replicate 66 0 ++ flatPacket 1 ++ flatPacket 2 ++ flatPacket 3 ++ replicate 446 7.

(** Three packets in, nothing played yet. *)
Definition ringFull : AudioRingBuffer := mkRing storeAfter3 0 (Some 1602).

(** Three packets in, one frame played. *)
Definition ringBeforeWrap : AudioRingBuffer := mkRing storeAfter3 512 (Some 1602).

(** One packet in, one frame played: the callback has just starved. *)
Definition ringStarved : AudioRingBuffer :=
  mkRing (replicate 66 0 ++ flatPacket 1 ++ replicate 1470 7) 512 None.

(** The ring of [ringStarved] after the next packet brought a new cushion. *)
Definition ringResynced : AudioRingBuffer :=
  mkRing (replicate 66 0 ++ flatPacket 2 ++ replicate 1470 7) 512 (Some 578).

(** One packet in, nothing played yet. *)
Definition ringAfter1 : AudioRingBuffer :=
  mkRing (replicate 66 0 ++ flatPacket 1 ++ replicate 1470 7) 0 (Some 578).

(** A source of 1024 equal samples, about to play from its start. *)
Definition toneSource : AudioSource := mkSource (replicate 1024 1000) 0 1024.

(** [x *= num / den] on an [int16_t], for a ratio and samples where single
    precision is exact: the product, converted back by truncation. *)
Definition scaleExact (num den : Z) (x : Z) : Z := (x * num) `quot` den.

(** [t += x * (num / den)] on [int16_t]s, under the same proviso. *)
Definition addScaledExact (num den : Z) (t x : Z) : Z := (t * den + x * num) `quot` den.

(** A failure code of PortAudio ([paInternalError]). *)
Definition paInternalError : Z := -9986.

(** ** Relay rounds

    The device asks for a frame, then the next packet arrives: one round of
    a session whose packets keep pace with the callbacks.  Each round yields
    what the callback returned and whether the packet needed a cushion. *)
Fixpoint relayRounds (packets : list (list Z)) (rb : AudioRingBuffer)
    : option (list (CallbackResult * bool) * AudioRingBuffer) :=
  match packets with
  | [] => Some ([], rb)
  | receivedData :: rest =>
      r ← audioCallback None rb;
      rb1 ← receivePacket (cb_ring r) receivedData;
      '(rs, rb') ← relayRounds rest rb1;
      Some ((r, needsJitterBuffer (cb_ring r)) :: rs, rb')
  end.

(** ** The positioned-sources callback over all its sources (lines 89-90, 135-183) *)

(** The four results of lines 153-165 for one source. *)
Record Placement : Type := mkPlacement {
  scaleOf : Z → Z;
  addPhaseOf : Z → Z → Z;
  delayOf : Z;
  leftLeads : bool
}.

(** [for (int s = 0; s < NUM_AUDIO_SOURCES; s++)]: every source is mixed
    into the same two channels through the same [samplesToQueue]. *)
Fixpoint mixSources (placed : list (Placement * AudioSource))
    (queue outLeft outRight : list Z)
    : option (list AudioSource * list Z * list Z * list Z) :=
  match placed with
  | [] => Some ([], queue, outLeft, outRight)
  | (pl, source) :: rest =>
      '(source', queue, outLeft, outRight) ←
        mixSource (scaleOf pl) (addPhaseOf pl) (delayOf pl) (leftLeads pl)
          source queue outLeft outRight;
      '(sources', queue, outLeft, outRight) ← mixSources rest queue outLeft outRight;
      Some (source' :: sources', queue, outLeft, outRight)
  end.

(** Both channels are zeroed (lines 89-90) before the sources are mixed.
    The forwarding of the captured input (lines 82-84) does not depend on
    the branch; it is modelled in [audioCallback]. *)
Definition audioCallbackSources (placed : list (Placement * AudioSource))
    (queue : list Z) : option (list AudioSource * list Z * list Z * list Z) :=
  mixSources placed queue silence silence.

(** A loaded source: [lengthInSamples] samples, at least one frame of them,
    and a play position inside them (or just past the last one). *)
Definition sourceOk (source : AudioSource) : Prop :=
  Z.of_nat (length (sourceData source)) = lengthInSamples source ∧
  BUFFER_LENGTH_SAMPLES ≤ lengthInSamples source ∧
  0 ≤ samplePointer source ≤ lengthInSamples source.

(** ** Session end (Audio::terminate, lines 369-391) *)

(** What the two PortAudio calls of [terminate] return. *)
Record PortAudioTeardown : Type := mkTeardown {
  Pa_CloseStream : Z;
  Pa_Terminate : Z
}.

(** The teardown actions of [terminate], in the order they ran. *)
Inductive TeardownStep : Type :=
  | CloseStream            (* [Pa_CloseStream(stream)] *)
  | DeleteData             (* [delete data] *)
  | TerminateLibrary       (* [Pa_Terminate()] *)
  | CloseLogFile.          (* [logFile.close()] *)

(** The lines [terminate] writes to [stderr]. *)
Inductive TerminateLine : Type :=
  | TerminationError                     (* "-- portaudio termination error --" *)
  | TerminationPortAudioError (code : Z). (* "PortAudio error (%d): %s" *)

(** What a call of [terminate] leaves: the statics, the teardown actions it
    ran, the lines it added to [stderr], and the value it returned. *)
Record Terminated : Type := mkTerminated {
  t_statics : AudioStatics;
  t_steps : list TeardownStep;
  t_stderr : list TerminateLine;
  t_ok : bool
}.

(** The [error:] label of [terminate] (lines 387-390). *)
Definition terminate_error (st : AudioStatics) (steps : list TeardownStep) : Terminated :=
  mkTerminated st steps [TerminationError; TerminationPortAudioError (err st)] false.

Definition terminate (pa : PortAudioTeardown) (st : AudioStatics) : Terminated :=
  if initialized st then
    let st := mkStatics false (err st) (stderr st) in
    let st := mkStatics (initialized st) (Pa_CloseStream pa) (stderr st) in
    if decide (err st ≠ paNoError) then terminate_error st [CloseStream] else
    let st := mkStatics (initialized st) (Pa_Terminate pa) (stderr st) in
    if decide (err st ≠ paNoError)
    then terminate_error st [CloseStream; DeleteData; TerminateLibrary] else
    mkTerminated st [CloseStream; DeleteData; TerminateLibrary; CloseLogFile] [] true
  else mkTerminated st [] [] true.

(** * Properties *)

(** ** Constants *)

Lemma BUFFER_LENGTH_SAMPLES_eq : BUFFER_LENGTH_SAMPLES = 512.
Proof. reflexivity. Qed.
Lemma PACKET_LENGTH_SAMPLES_eq : PACKET_LENGTH_SAMPLES = 512.
Proof. reflexivity. Qed.
Lemma RING_BUFFER_SIZE_SAMPLES_eq : RING_BUFFER_SIZE_SAMPLES = 2048.
Proof. reflexivity. Qed.
Lemma jitterBufferSamples_eq : jitterBufferSamples = 66.
Proof. reflexivity. Qed.

Ltac consts :=
  rewrite ?BUFFER_LENGTH_SAMPLES_eq, ?PACKET_LENGTH_SAMPLES_eq,
    ?RING_BUFFER_SIZE_SAMPLES_eq, ?jitterBufferSamples_eq in *.

(** ** Memory primitives *)

Section Memory.
Implicit Types (dst src l k : list Z) (d s n : Z) (j : nat).

Lemma memcpy_Some dst d src s n :
  0 ≤ d → 0 ≤ s → 0 ≤ n →
  d + n ≤ Z.of_nat (length dst) → s + n ≤ Z.of_nat (length src) →
  memcpy dst d src s n = Some (list_inserts (Z.to_nat d) (samplesAt src s n) dst).
Proof. intros. unfold memcpy. rewrite decide_True by lia. reflexivity. Qed.

Lemma memcpy_inv dst d src s n r :
  memcpy dst d src s n = Some r →
  (0 ≤ d ∧ 0 ≤ s ∧ 0 ≤ n ∧
   d + n ≤ Z.of_nat (length dst) ∧ s + n ≤ Z.of_nat (length src)) ∧
  r = list_inserts (Z.to_nat d) (samplesAt src s n) dst.
Proof. unfold memcpy. case_decide; intros [= <-]; auto. Qed.

Lemma memset0_Some dst d n :
  0 ≤ d → 0 ≤ n → d + n ≤ Z.of_nat (length dst) →
  memset0 dst d n = Some (list_inserts (Z.to_nat d) (replicate (Z.to_nat n) 0) dst).
Proof. intros. unfold memset0. rewrite decide_True by lia. reflexivity. Qed.

Lemma length_samplesAt l d n :
  0 ≤ d → 0 ≤ n → d + n ≤ Z.of_nat (length l) →
  length (samplesAt l d n) = Z.to_nat n.
Proof. intros. unfold samplesAt. rewrite length_take, length_drop. lia. Qed.

Lemma lookup_samplesAt l d n j :
  (j < Z.to_nat n)%nat → samplesAt l d n !! j = l !! (Z.to_nat d + j)%nat.
Proof. intros. unfold samplesAt. rewrite lookup_take_lt by lia. apply lookup_drop. Qed.

Lemma samplesAt_all l n :
  Z.of_nat (length l) = n → samplesAt l 0 n = l.
Proof.
  intros <-. unfold samplesAt. rewrite Nat2Z.id.
  change (Z.to_nat 0) with 0%nat. rewrite drop_0. apply firstn_all.
Qed.

(** Reading back what was just written. *)
Lemma samplesAt_inserts l k d n :
  Z.of_nat (length k) = n →
  0 ≤ d → d + n ≤ Z.of_nat (length l) →
  samplesAt (list_inserts (Z.to_nat d) k l) d n = k.
Proof.
  intros <- Hd Hb. apply list_eq. intros j.
  destruct (decide (j < length k)%nat) as [Hj|Hj].
  - rewrite lookup_samplesAt by lia.
    rewrite list_lookup_inserts by lia. f_equal. lia.
  - unfold samplesAt. rewrite lookup_take_ge by lia.
    symmetry. apply lookup_ge_None. lia.
Qed.

(** A read that does not meet the written range sees the old samples. *)
Lemma samplesAt_inserts_disjoint l k d d' n :
  0 ≤ d → 0 ≤ d' → 0 ≤ n →
  d' + n ≤ d ∨ d + Z.of_nat (length k) ≤ d' →
  samplesAt (list_inserts (Z.to_nat d) k l) d' n = samplesAt l d' n.
Proof.
  intros Hd Hd' Hn Hdis. apply list_eq. intros j.
  destruct (decide (j < Z.to_nat n)%nat) as [Hj|Hj].
  - rewrite !lookup_samplesAt by lia.
    destruct Hdis.
    + apply list_lookup_inserts_lt. lia.
    + apply list_lookup_inserts_ge. lia.
  - unfold samplesAt. rewrite !lookup_take_ge by lia. reflexivity.
Qed.

(** A read inside the written range sees that part of what was written. *)
Lemma samplesAt_inserts_inside l k d d' n :
  0 ≤ d → d ≤ d' → 0 ≤ n →
  d' + n ≤ d + Z.of_nat (length k) →
  d + Z.of_nat (length k) ≤ Z.of_nat (length l) →
  samplesAt (list_inserts (Z.to_nat d) k l) d' n = samplesAt k (d' - d) n.
Proof.
  intros Hd Hd' Hn Hin Hb. apply list_eq. intros j.
  destruct (decide (j < Z.to_nat n)%nat) as [Hj|Hj].
  - rewrite !lookup_samplesAt by lia.
    rewrite list_lookup_inserts by lia. f_equal. lia.
  - unfold samplesAt. rewrite !lookup_take_ge by lia. reflexivity.
Qed.

Lemma samplesAt_replicate m n (x : Z) :
  0 ≤ n → (Z.to_nat n ≤ m)%nat → samplesAt (replicate m x) 0 n = replicate (Z.to_nat n) x.
Proof.
  intros. unfold samplesAt. change (Z.to_nat 0) with 0%nat.
  rewrite drop_0, take_replicate. f_equal. lia.
Qed.

End Memory.

(** ** The receiver's three write strategies *)

Section Receiver.
Implicit Types (rb : AudioRingBuffer) (receivedData : list Z).

Lemma needsJitterBuffer_true rb :
  needsJitterBuffer rb = true ↔
  endOfLastWrite rb = None ∨
  (is_Some (endOfLastWrite rb) ∧
   diffLastWriteNextOutput rb > RING_BUFFER_SIZE_SAMPLES - PACKET_LENGTH_SAMPLES).
Proof.
  unfold needsJitterBuffer. destruct (endOfLastWrite rb) as [e|] eqn:He.
  - rewrite bool_decide_eq_true. split.
    + intros. right. split; [by eexists | done].
    + intros [[=]|[_ ?]]. done.
  - split; auto.
Qed.

(** The cushion write: [jitterBufferSamples] zeros at the store start, the
    packet right after them, the frontier after the packet; the rest of the
    store and the read cursor are left as they were. *)
Lemma injectJitterBuffer_spec rb receivedData :
  capacity rb = RING_BUFFER_SIZE_SAMPLES →
  Z.of_nat (length receivedData) = PACKET_LENGTH_SAMPLES →
  ∃ b', injectJitterBuffer rb 0 receivedData
          = Some (mkRing b' (nextOutput rb)
                    (Some (jitterBufferSamples + PACKET_LENGTH_SAMPLES))) ∧
        length b' = length (buffer rb) ∧
        samplesAt b' 0 jitterBufferSamples = replicate (Z.to_nat jitterBufferSamples) 0 ∧
        samplesAt b' jitterBufferSamples PACKET_LENGTH_SAMPLES = receivedData ∧
        ∀ d n, jitterBufferSamples + PACKET_LENGTH_SAMPLES ≤ d → 0 ≤ n →
               samplesAt b' d n = samplesAt (buffer rb) d n.
Proof.
  unfold capacity. consts. intros Hcap Hlen.
  unfold injectJitterBuffer. consts.
  rewrite memset0_Some by lia. cbn [mbind option_bind].
  rewrite memcpy_Some by (rewrite ?length_inserts; lia). cbn [mbind option_bind].
  rewrite (samplesAt_all receivedData 512) by done.
  eexists. split; [reflexivity|].
  split; [by rewrite !length_inserts|].
  split; [|split].
  - rewrite samplesAt_inserts_disjoint by lia.
    apply samplesAt_inserts; rewrite ?length_replicate; lia.
  - apply samplesAt_inserts; rewrite ?length_inserts; lia.
  - intros d n Hd Hn.
    rewrite !samplesAt_inserts_disjoint by (rewrite ?length_replicate; lia).
    reflexivity.
Qed.

(** The plain append: the packet lands at the frontier, which moves one
    packet on; nothing else changes. *)
Lemma appendPacket_spec rb receivedData e :
  endOfLastWrite rb = Some e →
  0 ≤ e → e + PACKET_LENGTH_SAMPLES ≤ capacity rb →
  Z.of_nat (length receivedData) = PACKET_LENGTH_SAMPLES →
  ∃ b', appendPacket rb e receivedData
          = Some (mkRing b' (nextOutput rb) (Some (e + PACKET_LENGTH_SAMPLES))) ∧
        length b' = length (buffer rb) ∧
        samplesAt b' e PACKET_LENGTH_SAMPLES = receivedData ∧
        ∀ d n, 0 ≤ d → 0 ≤ n → d + n ≤ e ∨ e + PACKET_LENGTH_SAMPLES ≤ d →
               samplesAt b' d n = samplesAt (buffer rb) d n.
Proof.
  unfold capacity. consts. intros He H0 Hfit Hlen.
  unfold appendPacket. consts.
  rewrite memcpy_Some by lia. cbn [mbind option_bind]. rewrite He. cbn [fmap option_fmap option_map].
  rewrite (samplesAt_all receivedData 512) by done.
  eexists. split; [reflexivity|].
  split; [by rewrite length_inserts|]. split.
  - apply samplesAt_inserts; lia.
  - intros d n ? ? ?. apply samplesAt_inserts_disjoint; lia.
Qed.

(** The wrap: the head of the packet fills the store up to its end; the
    samples copied to the store start are read from offset
    [bufferSampleOverlap] of the packet (line 265). *)
Lemma wrapPacket_spec rb receivedData e overlap :
  0 ≤ e → 0 < overlap → e + PACKET_LENGTH_SAMPLES - overlap = capacity rb →
  overlap ≤ e →
  overlap + overlap ≤ PACKET_LENGTH_SAMPLES →
  Z.of_nat (length receivedData) = PACKET_LENGTH_SAMPLES →
  ∃ b', wrapPacket rb e overlap receivedData
          = Some (mkRing b' (nextOutput rb) (Some overlap)) ∧
        length b' = length (buffer rb) ∧
        samplesAt b' e (PACKET_LENGTH_SAMPLES - overlap)
          = samplesAt receivedData 0 (PACKET_LENGTH_SAMPLES - overlap) ∧
        samplesAt b' 0 overlap = samplesAt receivedData overlap overlap.
Proof.
  unfold capacity. consts. intros H0 Hov Hcap Hle H2 Hlen.
  unfold wrapPacket. consts.
  rewrite memcpy_Some by lia. cbn [mbind option_bind].
  rewrite memcpy_Some by (rewrite ?length_inserts; lia). cbn [mbind option_bind].
  eexists. split; [reflexivity|].
  split; [by rewrite !length_inserts|]. split.
  - rewrite samplesAt_inserts_disjoint
      by (rewrite ?length_samplesAt; lia).
    apply samplesAt_inserts; rewrite ?length_samplesAt; lia.
  - apply (samplesAt_inserts _ _ 0);
      rewrite ?length_inserts, ?length_samplesAt; lia.
Qed.

End Receiver.

(** ** The read cursor and the frontier in a running session *)

Lemma aligned_cases n :
  aligned n ↔ n = 0 ∨ n = 512 ∨ n = 1024 ∨ n = 1536.
Proof.
  unfold aligned. consts. split.
  - intros [[m ->] ?]. lia.
  - intros [-> | [-> | [-> | ->]]]; (split; [|lia]).
    + by exists 0. + by exists 1. + by exists 2. + by exists 3.
Qed.

Lemma frontierOk_cases e :
  frontierOk e ↔ e = 66 ∨ e = 578 ∨ e = 1090 ∨ e = 1602.
Proof.
  unfold frontierOk. change RING_BUFFER_FRAMES with 4. consts. split.
  - intros (k & ? & ->). lia.
  - intros [-> | [-> | [-> | ->]]].
    + exists 0. lia. + exists 1. lia. + exists 2. lia. + exists 3. lia.
Qed.

Lemma silentTail_range rb e :
  0 ≤ silentTail rb e < BUFFER_LENGTH_SAMPLES.
Proof. unfold silentTail. consts. case_decide; lia. Qed.

(** On an aligned cursor the two pointer comparisons of lines 109-110 say
    that the distance from the cursor to the frontier, taken round the
    store, is positive and below one frame. *)
Lemma silentTail_nonzero rb e :
  capacity rb = RING_BUFFER_SIZE_SAMPLES → aligned (nextOutput rb) →
  0 ≤ e ≤ RING_BUFFER_SIZE_SAMPLES →
  silentTail rb e ≠ 0 ↔
  0 < (e - nextOutput rb) `mod` capacity rb < BUFFER_LENGTH_SAMPLES.
Proof.
  intros -> Hn He. apply aligned_cases in Hn. unfold silentTail. consts.
  case_decide as Hc.
  - rewrite Z.mod_small by lia. lia.
  - split; [lia|]. intros Hm. exfalso. apply Hc.
    destruct (decide (nextOutput rb < e)) as [Hlt|Hge].
    + destruct (decide (e - nextOutput rb = 2048)) as [Heq|Hne].
      * rewrite Heq in Hm. change (2048 `mod` 2048) with 0 in Hm. lia.
      * rewrite Z.mod_small in Hm by lia. lia.
    + destruct (decide (e = nextOutput rb)) as [->|Hne].
      * rewrite Z.sub_diag in Hm. change (0 `mod` 2048) with 0 in Hm. lia.
      * replace (e - nextOutput rb) with (e - nextOutput rb + 2048 + (-1) * 2048) in Hm by lia.
        rewrite Z.mod_add in Hm by lia. rewrite Z.mod_small in Hm by lia. lia.
Qed.

Lemma advanceNextOutput_aligned rb :
  aligned (nextOutput rb) → aligned (nextOutput (advanceNextOutput rb)).
Proof.
  rewrite !aligned_cases. unfold advanceNextOutput. consts. cbn [nextOutput set_nextOutput].
  intros [-> | [-> | [-> | ->]]]; case_decide; lia.
Qed.

(** The callback returns, leaves the store and its size alone, and keeps
    the invariant. *)
Lemma audioCallback_ringInv inputLeft rb :
  ringInv rb →
  ∃ r, audioCallback inputLeft rb = Some r ∧ ringInv (cb_ring r) ∧
       buffer (cb_ring r) = buffer rb ∧
       outputRight r = outputLeft r ∧ cb_sent r = inputLeft ∧
       match endOfLastWrite rb with
       | None => cb_ring r = rb ∧ outputLeft r = silence ∧ cb_stdout r = []
       | Some e =>
           nextOutput (cb_ring r) = nextOutput (advanceNextOutput rb) ∧
           outputLeft r
             = samplesAt (buffer rb) (nextOutput rb) (BUFFER_LENGTH_SAMPLES - silentTail rb e)
               ++ replicate (Z.to_nat (silentTail rb e)) 0 ∧
           if decide (diffLastWriteNextOutput (advanceNextOutput rb) < BUFFER_LENGTH_SAMPLES)
           then endOfLastWrite (cb_ring r) = None ∧ cb_stdout r = ["Starved"%string]
           else endOfLastWrite (cb_ring r) = Some e ∧ cb_stdout r = []
       end.
Proof.
  intros (Hcap & Hn & Hf). unfold audioCallback.
  destruct (endOfLastWrite rb) as [e|] eqn:He.
  - pose proof (silentTail_range rb e) as Hst.
    pose proof Hn as Hn'. apply aligned_cases in Hn'.
    unfold capacity in Hcap. revert Hst Hcap. consts. intros Hst Hcap.
    rewrite memcpy_Some by (unfold silence; rewrite ?length_replicate; consts; lia).
    cbn [mbind option_bind].
    assert (Hout : list_inserts (Z.to_nat 0)
                     (samplesAt (buffer rb) (nextOutput rb) (512 - silentTail rb e)) silence
                   = samplesAt (buffer rb) (nextOutput rb) (512 - silentTail rb e)
                     ++ replicate (Z.to_nat (silentTail rb e)) 0).
    { unfold silence. consts. change (Z.to_nat 0) with 0%nat.
      replace (Z.to_nat 512) with (Z.to_nat (512 - silentTail rb e) + Z.to_nat (silentTail rb e))%nat
        by lia.
      rewrite replicate_add. apply list_inserts_0_r.
      rewrite length_samplesAt, length_replicate by lia. reflexivity. }
    rewrite Hout.
    assert (Hinv1 : ∀ f, (∀ e', f = Some e' → frontierOk e') →
              ringInv (mkRing (buffer rb) (nextOutput (advanceNextOutput rb)) f)).
    { intros f Hfo. split; [|split]; cbn; [unfold capacity; consts; done| |done].
      by apply advanceNextOutput_aligned. }
    case_decide.
    + eexists. split; [reflexivity|]. cbn.
      split; [apply (Hinv1 None); intros ? [=]|]. by repeat split.
    + eexists. split; [reflexivity|]. cbn.
      split; [|rewrite He; by repeat split].
      unfold advanceNextOutput at 1, set_nextOutput. rewrite He.
      apply (Hinv1 (Some e)). intros ? [= <-]. auto.
  - eexists. split; [reflexivity|]. cbn.
    split; [split; [|split]; auto; by rewrite He|]. by repeat split.
Qed.

Lemma bufferOverlap_cases rb e :
  capacity rb = RING_BUFFER_SIZE_SAMPLES → frontierOk e →
  (bufferOverlap rb e PACKET_LENGTH_SAMPLES = 0 ∧ e + PACKET_LENGTH_SAMPLES ≤ capacity rb
   ∧ frontierOk (e + PACKET_LENGTH_SAMPLES)) ∨
  (bufferOverlap rb e PACKET_LENGTH_SAMPLES = jitterBufferSamples
   ∧ e = RING_BUFFER_SIZE_SAMPLES - PACKET_LENGTH_SAMPLES + jitterBufferSamples).
Proof.
  intros Hcap He. unfold bufferOverlap. rewrite Hcap.
  rewrite frontierOk_cases in *. consts.
  destruct He as [-> | [-> | [-> | ->]]]; [left|left|left|right]; split; lia.
Qed.

(** The receiver returns on every packet, never touches the read cursor,
    and keeps the invariant. *)
Lemma receivePacket_ringInv rb receivedData :
  ringInv rb → Z.of_nat (length receivedData) = PACKET_LENGTH_SAMPLES →
  ∃ rb', receivePacket rb receivedData = Some rb' ∧ ringInv rb' ∧
         nextOutput rb' = nextOutput rb.
Proof.
  intros (Hcap & Hn & Hf) Hlen. unfold receivePacket.
  destruct (needsJitterBuffer rb) eqn:Hneeds.
  - destruct (injectJitterBuffer_spec rb receivedData Hcap Hlen)
      as (b' & -> & Hlb & _).
    eexists. split; [reflexivity|]. split; [|reflexivity].
    split; [|split]; cbn; [unfold capacity in *; cbn; by rewrite Hlb|done|].
    intros ? [= <-]. exists 1. change RING_BUFFER_FRAMES with 4. lia.
  - destruct (endOfLastWrite rb) as [e|] eqn:He;
      [|by unfold needsJitterBuffer in Hneeds; rewrite He in Hneeds].
    specialize (Hf e eq_refl).
    destruct (bufferOverlap_cases rb e Hcap Hf) as [(Hov & Hfit & Hnext)|(Hov & ->)];
      rewrite Hov.
    + rewrite decide_True by done.
      assert (0 ≤ e) by (apply frontierOk_cases in Hf; lia).
      destruct (appendPacket_spec rb receivedData e He) as (b' & -> & Hlb & _); [done..|].
      eexists. split; [reflexivity|]. split; [|reflexivity].
      split; [|split]; cbn; [unfold capacity in *; cbn; by rewrite Hlb|done|].
      by intros ? [= <-].
    + rewrite decide_False by done.
      destruct (wrapPacket_spec rb receivedData
                  (RING_BUFFER_SIZE_SAMPLES - PACKET_LENGTH_SAMPLES + jitterBufferSamples)
                  jitterBufferSamples)
        as (b' & -> & Hlb & _); [rewrite ?Hcap; consts; lia..|].
      eexists. split; [reflexivity|]. split; [|reflexivity].
      split; [|split]; cbn; [unfold capacity in *; cbn; by rewrite Hlb|done|].
      intros ? [= <-]. exists 0. change RING_BUFFER_FRAMES with 4. lia.
Qed.

Lemma step_ringInv rb ev :
  ringInv rb → wellFormed ev → ∃ rb', step rb ev = Some rb' ∧ ringInv rb'.
Proof.
  intros Hinv Hwf. destruct ev as [receivedData|inputLeft]; cbn [step].
  - destruct (receivePacket_ringInv rb receivedData Hinv Hwf) as (rb' & -> & ? & _).
    eauto.
  - destruct (audioCallback_ringInv inputLeft rb Hinv) as (r & -> & ? & _).
    cbn. eauto.
Qed.

Lemma reachable_ringInv rb : reachable rb → ringInv rb.
Proof.
  induction 1 as [contents Hlen|rb ev rb' _ IH Hwf Hstep].
  - split; [done|]. split; [|intros ? [=]].
    apply aligned_cases. by left.
  - destruct (step_ringInv rb ev IH Hwf) as (rb'' & Heq & ?). congruence.
Qed.

(** A session never gets stuck: whatever happened before, the next packet
    and the next callback both run to their end. *)
Lemma reachable_progress rb ev :
  reachable rb → wellFormed ev → ∃ rb', step rb ev = Some rb' ∧ reachable rb'.
Proof.
  intros Hr Hwf.
  destruct (step_ringInv rb ev (reachable_ringInv rb Hr) Hwf) as (rb' & Heq & _).
  exists rb'. split; [done|]. by eapply reachable_step.
Qed.

Lemma run_reachable events rb rb' :
  reachable rb → Forall wellFormed events → run events rb = Some rb' → reachable rb'.
Proof.
  intros Hr Hwf. revert rb Hr. induction Hwf as [|ev rest Hev _ IH]; intros rb Hr; cbn.
  - by intros [= <-].
  - destruct (step rb ev) as [rb1|] eqn:Hs; [|done]. cbn.
    apply IH. by eapply reachable_step.
Qed.

Lemma staleStore_length : Z.of_nat (length staleStore) = RING_BUFFER_SIZE_SAMPLES.
Proof. reflexivity. Qed.

Lemma reachable_ringAfter1 : reachable ringAfter1.
Proof.
  apply (run_reachable [Packet (flatPacket 1)] (AudioRingBuffer_new staleStore)).
  - apply reachable_new, staleStore_length.
  - repeat constructor.
  - vm_compute. reflexivity.
Qed.

Lemma reachable_ringStarved : reachable ringStarved.
Proof.
  apply (run_reachable [Callback None] ringAfter1).
  - apply reachable_ringAfter1.
  - repeat constructor.
  - vm_compute. reflexivity.
Qed.

Lemma reachable_ringResynced : reachable ringResynced.
Proof.
  apply (run_reachable [Packet (flatPacket 2)] ringStarved).
  - apply reachable_ringStarved.
  - repeat constructor.
  - vm_compute. reflexivity.
Qed.

Lemma reachable_ringFull : reachable ringFull.
Proof.
  apply (run_reachable [Packet (flatPacket 2); Packet (flatPacket 3)] ringAfter1).
  - apply reachable_ringAfter1.
  - repeat constructor.
  - vm_compute. reflexivity.
Qed.

Lemma reachable_ringBeforeWrap : reachable ringBeforeWrap.
Proof.
  apply (run_reachable [Callback None] ringFull).
  - apply reachable_ringFull.
  - repeat constructor.
  - vm_compute. reflexivity.
Qed.

(** * The claims *)

(** C10: in a running session the read cursor is frame-aligned after every
    callback: it is a multiple of the frame size (512) inside [0, 2048); when
    the frontier is set the callback moves it one frame on and puts it back
    to 0 exactly when it reaches the capacity; and the callback's single copy
    of up to one frame from the cursor ends inside the store, so the callback
    always returns. *)
Theorem read_cursor_frame_aligned rb inputLeft :
  reachable rb →
  ∃ r, audioCallback inputLeft rb = Some r ∧
       aligned (nextOutput (cb_ring r)) ∧
       match endOfLastWrite rb with
       | None => nextOutput (cb_ring r) = nextOutput rb
       | Some e =>
           nextOutput rb + (BUFFER_LENGTH_SAMPLES - silentTail rb e) ≤ capacity rb ∧
           nextOutput (cb_ring r)
             = (if decide (nextOutput rb + BUFFER_LENGTH_SAMPLES = RING_BUFFER_SIZE_SAMPLES)
                then 0 else nextOutput rb + BUFFER_LENGTH_SAMPLES) ∧
           (nextOutput (cb_ring r) = 0 ↔
            nextOutput rb + BUFFER_LENGTH_SAMPLES = RING_BUFFER_SIZE_SAMPLES)
       end.
Proof.
  intros Hr. pose proof (reachable_ringInv rb Hr) as Hinv.
  destruct (audioCallback_ringInv inputLeft rb Hinv) as (r & Hcb & Hinv' & _ & _ & _ & Hcase).
  exists r. split; [done|]. split; [apply Hinv'|].
  destruct Hinv as (Hcap & Hn & _).
  destruct (endOfLastWrite rb) as [e|].
  - destruct Hcase as (Hnext & _).
    pose proof (silentTail_range rb e) as Hst.
    apply aligned_cases in Hn. rewrite Hnext, Hcap.
    unfold advanceNextOutput. cbn [nextOutput set_nextOutput].
    revert Hst. consts. intros Hst. change (0 + 2048) with 2048.
    split; [lia|]. split; [done|]. case_decide; lia.
  - by destruct Hcase as (-> & _).
Qed.

Lemma read_cursor_frame_aligned_witness :
  reachable ringBeforeWrap ∧
  ∃ r, audioCallback None ringBeforeWrap = Some r ∧ nextOutput (cb_ring r) = 1024.
Proof.
  split; [apply reachable_ringBeforeWrap|].
  destruct (read_cursor_frame_aligned ringBeforeWrap None reachable_ringBeforeWrap)
    as (r & Hcb & _ & _ & Hnext & _).
  exists r. split; [exact Hcb|]. rewrite Hnext. reflexivity.
Defined.

(** C8: in a running session, a callback that finds the frontier set copies
    exactly [BUFFER_LENGTH_SAMPLES - silentTail] samples from the read
    cursor on; [silentTail] is non-zero exactly when the frontier is ahead of
    the cursor, round the store, by less than one frame (a frontier that has
    wrapped to a store offset below the cursor is always a whole frame or
    more ahead, and [silentTail] is 0 then); the emitted frame is those
    samples followed by [silentTail] samples of silence, on both channels. *)
Theorem callback_copies_frame_less_silentTail rb inputLeft e :
  reachable rb → endOfLastWrite rb = Some e →
  ∃ r, audioCallback inputLeft rb = Some r ∧
       0 ≤ silentTail rb e < BUFFER_LENGTH_SAMPLES ∧
       (silentTail rb e ≠ 0 ↔
        0 < diffLastWriteNextOutput rb < BUFFER_LENGTH_SAMPLES) ∧
       (e < nextOutput rb →
        silentTail rb e = 0 ∧ BUFFER_LENGTH_SAMPLES ≤ diffLastWriteNextOutput rb) ∧
       outputLeft r
         = samplesAt (buffer rb) (nextOutput rb) (BUFFER_LENGTH_SAMPLES - silentTail rb e)
           ++ replicate (Z.to_nat (silentTail rb e)) 0 ∧
       length (samplesAt (buffer rb) (nextOutput rb) (BUFFER_LENGTH_SAMPLES - silentTail rb e))
         = Z.to_nat (BUFFER_LENGTH_SAMPLES - silentTail rb e) ∧
       outputRight r = outputLeft r.
Proof.
  intros Hr He. pose proof (reachable_ringInv rb Hr) as Hinv.
  destruct (audioCallback_ringInv inputLeft rb Hinv) as (r & Hcb & _ & _ & Hright & _ & Hcase).
  rewrite He in Hcase. destruct Hcase as (_ & Hout & _).
  destruct Hinv as (Hcap & Hn & Hf). specialize (Hf e He).
  pose proof (silentTail_range rb e) as Hst.
  exists r. split; [done|]. split; [done|].
  split; [|split; [|split; [done|split; [|done]]]].
  - unfold diffLastWriteNextOutput. rewrite He.
    apply silentTail_nonzero; [done..|].
    apply frontierOk_cases in Hf. consts. lia.
  - intros Hlt. unfold diffLastWriteNextOutput, silentTail. rewrite He, Hcap.
    apply aligned_cases in Hn. apply frontierOk_cases in Hf. consts.
    split; [by rewrite decide_False by lia|].
    replace (e - nextOutput rb) with (e - nextOutput rb + 2048 + (-1) * 2048) by lia.
    rewrite Z.mod_add by lia. rewrite Z.mod_small by lia. lia.
  - apply aligned_cases in Hn. unfold capacity in Hcap. revert Hst Hcap. consts.
    intros Hst Hcap. apply length_samplesAt; lia.
Qed.

Lemma callback_copies_frame_less_silentTail_witness :
  reachable ringResynced ∧ endOfLastWrite ringResynced = Some 578 ∧
  ∃ r, audioCallback None ringResynced = Some r ∧
       outputLeft r = replicate 66 2 ++ replicate 446 0 ∧ outputRight r = outputLeft r.
Proof.
  split; [apply reachable_ringResynced|]. split; [reflexivity|].
  destruct (callback_copies_frame_less_silentTail ringResynced None 578
              reachable_ringResynced eq_refl)
    as (r & Hcb & _ & _ & _ & Hout & _ & Hright).
  exists r. split; [exact Hcb|]. split; [|exact Hright].
  rewrite Hout. vm_compute. reflexivity.
Defined.

Lemma audioCallbacks_unset inputs rb :
  endOfLastWrite rb = None →
  ∃ rs, audioCallbacks inputs rb = Some (rs, rb) ∧
        length rs = length inputs ∧
        Forall (λ r, outputLeft r = silence ∧ outputRight r = silence ∧
                     endOfLastWrite (cb_ring r) = None) rs.
Proof.
  intros He. induction inputs as [|inputLeft rest (rs & IH & Hlen & Hall)]; cbn.
  - exists []. by repeat split.
  - unfold audioCallback. rewrite He. cbn. rewrite IH. cbn.
    eexists. split; [reflexivity|]. split; [cbn; by rewrite Hlen|].
    constructor; [by repeat split|done].
Qed.

(** C5: in a running session, when a callback finds the frontier set and,
    once the read cursor is advanced, the distance from the cursor to the
    frontier is below one frame, the callback unsets the frontier and writes
    "Starved"; every callback after it, as long as no packet arrives, emits
    silence on both channels and leaves the frontier unset; the next packet
    injects a cushion and sets the frontier again. *)
Theorem starvation_unsets_frontier rb inputLeft :
  reachable rb → is_Some (endOfLastWrite rb) →
  diffLastWriteNextOutput (advanceNextOutput rb) < BUFFER_LENGTH_SAMPLES →
  ∃ r, audioCallback inputLeft rb = Some r ∧
       endOfLastWrite (cb_ring r) = None ∧
       nextOutput (cb_ring r) = nextOutput (advanceNextOutput rb) ∧
       cb_stdout r = ["Starved"%string] ∧
       (∀ inputs, ∃ rs,
           audioCallbacks inputs (cb_ring r) = Some (rs, cb_ring r) ∧
           length rs = length inputs ∧
           Forall (λ r', outputLeft r' = silence ∧ outputRight r' = silence ∧
                         endOfLastWrite (cb_ring r') = None) rs) ∧
       (∀ receivedData,
           Z.of_nat (length receivedData) = PACKET_LENGTH_SAMPLES →
           needsJitterBuffer (cb_ring r) = true ∧
           ∃ rb', receivePacket (cb_ring r) receivedData = Some rb' ∧
                  endOfLastWrite rb' = Some (jitterBufferSamples + PACKET_LENGTH_SAMPLES) ∧
                  samplesAt (buffer rb') 0 jitterBufferSamples
                    = replicate (Z.to_nat jitterBufferSamples) 0).
Proof.
  intros Hr [e He] Hdiff. pose proof (reachable_ringInv rb Hr) as Hinv.
  destruct (audioCallback_ringInv inputLeft rb Hinv)
    as (r & Hcb & Hinv' & _ & _ & _ & Hcase).
  rewrite He in Hcase. destruct Hcase as (Hnext & _ & Hstarved).
  rewrite decide_True in Hstarved by done. destruct Hstarved as (Hnone & Hout).
  exists r. split; [done|]. split; [done|]. split; [done|]. split; [done|]. split.
  - intros inputs. by apply audioCallbacks_unset.
  - intros receivedData Hlen.
    assert (Hneeds : needsJitterBuffer (cb_ring r) = true)
      by (unfold needsJitterBuffer; by rewrite Hnone).
    split; [done|]. unfold receivePacket. rewrite Hneeds.
    destruct Hinv' as (Hcap & _).
    destruct (injectJitterBuffer_spec (cb_ring r) receivedData Hcap Hlen)
      as (b' & -> & _ & Hzero & _).
    eexists. split; [reflexivity|]. by split.
Qed.

Lemma starvation_unsets_frontier_witness :
  reachable ringAfter1 ∧ is_Some (endOfLastWrite ringAfter1) ∧
  diffLastWriteNextOutput (advanceNextOutput ringAfter1) < BUFFER_LENGTH_SAMPLES ∧
  ∃ r, audioCallback None ringAfter1 = Some r ∧ cb_ring r = ringStarved.
Proof.
  split; [apply reachable_ringAfter1|].
  split; [eexists; reflexivity|].
  split; [vm_compute; reflexivity|].
  destruct (starvation_unsets_frontier ringAfter1 None reachable_ringAfter1)
    as (r & Hcb & _); [eexists; reflexivity | vm_compute; reflexivity |].
  exists r. split; [exact Hcb|].
  vm_compute in Hcb. injection Hcb as <-. reflexivity.
Defined.

Lemma needsJitterBuffer_iff rb :
  needsJitterBuffer rb = true ↔
  endOfLastWrite rb = None ∨
  diffLastWriteNextOutput rb > RING_BUFFER_SIZE_SAMPLES - PACKET_LENGTH_SAMPLES.
Proof.
  rewrite needsJitterBuffer_true. split.
  - intros [?|[_ ?]]; auto.
  - intros [?|Hd]; [by left|]. right. split; [|done].
    unfold diffLastWriteNextOutput in Hd.
    destruct (endOfLastWrite rb); [by eexists|]. revert Hd. consts. lia.
Qed.

(** C6, what the code does with every packet of a running session.  It
    injects a jitter cushion if and only if the frontier is unset or the
    distance from the read cursor to the frontier exceeds capacity -
    frameSize = 1536 samples: the cushion and the whole packet are then
    written from the store start and the frontier is set behind them.
    Otherwise the write starts at the frontier.  When the packet fits before
    the store end it is appended whole and the frontier moves on by one
    packet.  When it does not fit, only its head up to the store end is
    written at the frontier; the [overlap] samples written at the store
    start are read from offset [overlap] of the packet, not from where the
    head stopped, and the frontier becomes [overlap]: the packet is not in
    the store. *)
Theorem cushion_iff_unset_or_nearly_full rb receivedData :
  reachable rb → Z.of_nat (length receivedData) = PACKET_LENGTH_SAMPLES →
  RING_BUFFER_SIZE_SAMPLES - PACKET_LENGTH_SAMPLES = 1536 ∧
  (needsJitterBuffer rb = true ↔
   endOfLastWrite rb = None ∨
   diffLastWriteNextOutput rb > RING_BUFFER_SIZE_SAMPLES - PACKET_LENGTH_SAMPLES) ∧
  (needsJitterBuffer rb = true →
   ∃ rb', receivePacket rb receivedData = Some rb' ∧
          receivePacket rb receivedData = injectJitterBuffer rb 0 receivedData ∧
          samplesAt (buffer rb') 0 jitterBufferSamples
            = replicate (Z.to_nat jitterBufferSamples) 0 ∧
          samplesAt (buffer rb') jitterBufferSamples PACKET_LENGTH_SAMPLES = receivedData ∧
          endOfLastWrite rb' = Some (jitterBufferSamples + PACKET_LENGTH_SAMPLES) ∧
          nextOutput rb' = nextOutput rb) ∧
  (needsJitterBuffer rb = false →
   ∃ e rb', endOfLastWrite rb = Some e ∧
            receivePacket rb receivedData = Some rb' ∧
            nextOutput rb' = nextOutput rb ∧
            let overlap := bufferOverlap rb e PACKET_LENGTH_SAMPLES in
            0 ≤ overlap < PACKET_LENGTH_SAMPLES ∧
            samplesAt (buffer rb') e (PACKET_LENGTH_SAMPLES - overlap)
              = samplesAt receivedData 0 (PACKET_LENGTH_SAMPLES - overlap) ∧
            samplesAt (buffer rb') 0 overlap = samplesAt receivedData overlap overlap ∧
            endOfLastWrite rb'
              = Some (if decide (overlap = 0) then e + PACKET_LENGTH_SAMPLES else overlap) ∧
            (overlap = 0 →
             samplesAt (buffer rb') e PACKET_LENGTH_SAMPLES = receivedData) ∧
            (overlap ≠ 0 →
             e + (PACKET_LENGTH_SAMPLES - overlap) = capacity rb ∧
             overlap + overlap ≤ PACKET_LENGTH_SAMPLES - overlap)).
Proof.
  intros Hr Hlen. pose proof (reachable_ringInv rb Hr) as (Hcap & Hn & Hf).
  split; [reflexivity|]. split; [apply needsJitterBuffer_iff|]. split.
  - intros Hneeds. unfold receivePacket. rewrite Hneeds.
    destruct (injectJitterBuffer_spec rb receivedData Hcap Hlen)
      as (b' & -> & _ & Hzero & Hpkt & _).
    eexists. by repeat split.
  - intros Hneeds. unfold receivePacket. rewrite Hneeds.
    destruct (endOfLastWrite rb) as [e|] eqn:He;
      [|by unfold needsJitterBuffer in Hneeds; rewrite He in Hneeds].
    specialize (Hf e eq_refl). exists e.
    destruct (bufferOverlap_cases rb e Hcap Hf) as [(Hov & Hfit & Hnext)|(Hov & ->)];
      rewrite !Hov.
    + rewrite decide_True by done.
      assert (0 ≤ e) by (apply frontierOk_cases in Hf; lia).
      destruct (appendPacket_spec rb receivedData e He) as (b' & -> & _ & Hpkt & _);
        [done..|].
      eexists. split; [done|]. split; [reflexivity|]. cbn.
      rewrite Z.sub_0_r, Hpkt, samplesAt_all by done.
      split; [done|]. split; [done|]. split; [done|]. split; [done|].
      split; [done|]. split; [done|]. intros Hne. by destruct Hne.
    + rewrite decide_False by done.
      destruct (wrapPacket_spec rb receivedData
                  (RING_BUFFER_SIZE_SAMPLES - PACKET_LENGTH_SAMPLES + jitterBufferSamples)
                  jitterBufferSamples)
        as (b' & -> & _ & Hhead & Htail); [rewrite ?Hcap; consts; lia..|].
      eexists. split; [done|]. split; [reflexivity|]. cbn.
      split; [done|]. split; [done|]. split; [exact Hhead|]. split; [exact Htail|].
      split; [done|]. split; [done|]. intros _. rewrite Hcap. done.
Qed.

Lemma cushion_iff_unset_or_nearly_full_witness :
  reachable ringBeforeWrap ∧
  Z.of_nat (length rampPacket) = PACKET_LENGTH_SAMPLES ∧
  diffLastWriteNextOutput ringBeforeWrap = 1090 ∧
  needsJitterBuffer ringBeforeWrap = false ∧
  ∃ rb', receivePacket ringBeforeWrap rampPacket = Some rb' ∧
         endOfLastWrite rb' = Some 66 ∧
         samplesAt (buffer rb') 1602 446 = seqZ 1 446 ∧
         samplesAt (buffer rb') 0 66 = seqZ 67 66 ∧
         samplesAt rampPacket 446 66 = seqZ 447 66.
Proof.
  split; [apply reachable_ringBeforeWrap|]. split; [reflexivity|].
  split; [reflexivity|]. split; [reflexivity|].
  destruct (cushion_iff_unset_or_nearly_full ringBeforeWrap rampPacket
              reachable_ringBeforeWrap eq_refl) as (_ & _ & _ & Hwrite).
  destruct (Hwrite eq_refl) as (e & rb' & He & Hrecv & _ & _ & Hhead & Htail & Hfr & _).
  injection He as <-. cbv zeta in Hhead, Htail, Hfr.
  change (bufferOverlap ringBeforeWrap 1602 PACKET_LENGTH_SAMPLES) with 66
    in Hhead, Htail, Hfr.
  change (PACKET_LENGTH_SAMPLES - 66) with 446 in Hhead.
  exists rb'. split; [exact Hrecv|].
  split; [rewrite Hfr; reflexivity|].
  split; [rewrite Hhead; vm_compute; reflexivity|].
  split; [rewrite Htail; vm_compute; reflexivity|]. vm_compute. reflexivity.
Defined.

(** C3, the claim as stated fails: with three packets in and nothing played,
    the frontier is at 1602 and the buffer is nearly full, so the fourth
    packet resynchronizes.  The cushion is written from the store start, not
    from the frontier: the samples at the frontier are untouched and the new
    frontier is 578, not 66 + 512 past the old frontier. *)
Lemma resync_cushion_not_at_frontier :
  reachable ringFull ∧
  endOfLastWrite ringFull = Some 1602 ∧
  needsJitterBuffer ringFull = true ∧
  ∃ rb', receivePacket ringFull (flatPacket 4) = Some rb' ∧
         samplesAt (buffer rb') 0 66 = replicate 66 0 ∧
         samplesAt (buffer rb') 66 512 = flatPacket 4 ∧
         samplesAt (buffer rb') 1602 66 = samplesAt (buffer ringFull) 1602 66 ∧
         samplesAt (buffer rb') 1602 66 ≠ replicate 66 0 ∧
         endOfLastWrite rb' = Some 578 ∧
         endOfLastWrite rb' ≠ Some (1602 + jitterBufferSamples + PACKET_LENGTH_SAMPLES).
Proof.
  split; [apply reachable_ringFull|]. split; [reflexivity|]. split; [reflexivity|].
  eexists. split; [vm_compute; reflexivity|]. cbn [buffer endOfLastWrite].
  split; [vm_compute; reflexivity|]. split; [vm_compute; reflexivity|].
  split; [vm_compute; reflexivity|]. split; [vm_compute; discriminate|].
  split; [reflexivity|]. vm_compute. discriminate.
Qed.

(** C3, amended: whenever a packet triggers cushion injection, whether the
    frontier was unset or the buffer was nearly full, the zero-fill begins at
    the store start, the packet is copied right after the cushion, and the
    frontier is set to cushion length + frame size from the store start; the
    samples beyond the new frontier and the read cursor are unchanged. *)
Theorem cushion_written_at_store_start rb receivedData :
  capacity rb = RING_BUFFER_SIZE_SAMPLES →
  Z.of_nat (length receivedData) = PACKET_LENGTH_SAMPLES →
  needsJitterBuffer rb = true →
  ∃ rb', receivePacket rb receivedData = Some rb' ∧
         samplesAt (buffer rb') 0 jitterBufferSamples
           = replicate (Z.to_nat jitterBufferSamples) 0 ∧
         samplesAt (buffer rb') (0 + jitterBufferSamples) PACKET_LENGTH_SAMPLES
           = receivedData ∧
         endOfLastWrite rb' = Some (0 + jitterBufferSamples + PACKET_LENGTH_SAMPLES) ∧
         nextOutput rb' = nextOutput rb ∧
         length (buffer rb') = length (buffer rb) ∧
         ∀ d n, jitterBufferSamples + PACKET_LENGTH_SAMPLES ≤ d → 0 ≤ n →
                samplesAt (buffer rb') d n = samplesAt (buffer rb) d n.
Proof.
  intros Hcap Hlen Hneeds. unfold receivePacket. rewrite Hneeds.
  destruct (injectJitterBuffer_spec rb receivedData Hcap Hlen)
    as (b' & -> & Hlb & Hzero & Hpkt & Hrest).
  eexists. split; [reflexivity|]. cbn. by repeat split.
Qed.

Lemma cushion_written_at_store_start_witness :
  capacity ringFull = RING_BUFFER_SIZE_SAMPLES ∧
  Z.of_nat (length (flatPacket 4)) = PACKET_LENGTH_SAMPLES ∧
  needsJitterBuffer ringFull = true ∧
  ∃ rb', receivePacket ringFull (flatPacket 4) = Some rb' ∧
         endOfLastWrite rb' = Some 578.
Proof.
  split; [reflexivity|]. split; [reflexivity|]. split; [reflexivity|].
  destruct (cushion_written_at_store_start ringFull (flatPacket 4))
    as (rb' & Hrecv & _ & _ & Hfrontier & _); [reflexivity..|].
  exists rb'. split; [exact Hrecv|]. rewrite Hfrontier. reflexivity.
Defined.

(** C7: whenever a cushion is injected, exactly [jitterBufferSamples]
    (3 ms at 22050 Hz in whole samples per millisecond: 66) zero samples are
    written right before the freshly copied packet.  In particular, from a
    fresh ring with no reader activity: the first packet leaves the frontier
    at [jitterBufferSamples + 512]; the second and third packets each move
    it on by exactly 512, landing right behind the previous packet; the
    fourth packet, which would not fit before the end of the 2048-sample
    store, triggers a new cushion at the store start instead of a wrap. *)
Theorem cushion_then_whole_frames contents p1 p2 p3 p4 :
  Z.of_nat (length contents) = RING_BUFFER_SIZE_SAMPLES →
  Z.of_nat (length p1) = PACKET_LENGTH_SAMPLES →
  Z.of_nat (length p2) = PACKET_LENGTH_SAMPLES →
  Z.of_nat (length p3) = PACKET_LENGTH_SAMPLES →
  Z.of_nat (length p4) = PACKET_LENGTH_SAMPLES →
  jitterBufferSamples = (JITTER_BUFFER_LENGTH_MSECS * SAMPLE_RATE) `quot` 1000 ∧
  (∀ rb receivedData,
      capacity rb = RING_BUFFER_SIZE_SAMPLES →
      Z.of_nat (length receivedData) = PACKET_LENGTH_SAMPLES →
      needsJitterBuffer rb = true →
      ∃ rb', receivePacket rb receivedData = Some rb' ∧
             samplesAt (buffer rb') 0 jitterBufferSamples
               = replicate (Z.to_nat jitterBufferSamples) 0 ∧
             samplesAt (buffer rb') jitterBufferSamples PACKET_LENGTH_SAMPLES
               = receivedData ∧
             endOfLastWrite rb' = Some (jitterBufferSamples + PACKET_LENGTH_SAMPLES)) ∧
  ∃ rb1 rb2 rb3 rb4,
    receivePacket (AudioRingBuffer_new contents) p1 = Some rb1 ∧
    endOfLastWrite rb1 = Some (jitterBufferSamples + 512) ∧
    samplesAt (buffer rb1) 0 jitterBufferSamples = replicate (Z.to_nat jitterBufferSamples) 0 ∧
    samplesAt (buffer rb1) jitterBufferSamples 512 = p1 ∧
    needsJitterBuffer rb1 = false ∧
    receivePacket rb1 p2 = Some rb2 ∧
    endOfLastWrite rb2 = Some (jitterBufferSamples + 512 + 512) ∧
    samplesAt (buffer rb2) (jitterBufferSamples + 512) 512 = p2 ∧
    needsJitterBuffer rb2 = false ∧
    receivePacket rb2 p3 = Some rb3 ∧
    endOfLastWrite rb3 = Some (jitterBufferSamples + 512 + 512 + 512) ∧
    samplesAt (buffer rb3) (jitterBufferSamples + 512 + 512) 512 = p3 ∧
    bufferOverlap rb3 (jitterBufferSamples + 512 + 512 + 512) PACKET_LENGTH_SAMPLES > 0 ∧
    needsJitterBuffer rb3 = true ∧
    receivePacket rb3 p4 = Some rb4 ∧
    endOfLastWrite rb4 = Some (jitterBufferSamples + 512) ∧
    samplesAt (buffer rb4) 0 jitterBufferSamples = replicate (Z.to_nat jitterBufferSamples) 0 ∧
    samplesAt (buffer rb4) jitterBufferSamples 512 = p4 ∧
    nextOutput rb4 = 0.
Proof.
  intros Hc H1 H2 H3 H4. split; [reflexivity|].
  assert (Hgen : ∀ rb receivedData,
      capacity rb = RING_BUFFER_SIZE_SAMPLES →
      Z.of_nat (length receivedData) = PACKET_LENGTH_SAMPLES →
      needsJitterBuffer rb = true →
      ∃ b', receivePacket rb receivedData
              = Some (mkRing b' (nextOutput rb)
                        (Some (jitterBufferSamples + PACKET_LENGTH_SAMPLES))) ∧
            length b' = length (buffer rb) ∧
            samplesAt b' 0 jitterBufferSamples = replicate (Z.to_nat jitterBufferSamples) 0 ∧
            samplesAt b' jitterBufferSamples PACKET_LENGTH_SAMPLES = receivedData).
  { intros rb receivedData Hcap Hlen Hneeds. unfold receivePacket. rewrite Hneeds.
    destruct (injectJitterBuffer_spec rb receivedData Hcap Hlen)
      as (b' & -> & ? & ? & ? & _). eauto. }
  assert (Happ : ∀ b n e receivedData,
      Z.of_nat (length b) = RING_BUFFER_SIZE_SAMPLES →
      Z.of_nat (length receivedData) = PACKET_LENGTH_SAMPLES →
      0 ≤ e → e + PACKET_LENGTH_SAMPLES ≤ RING_BUFFER_SIZE_SAMPLES →
      (e - n) `mod` RING_BUFFER_SIZE_SAMPLES ≤ RING_BUFFER_SIZE_SAMPLES - PACKET_LENGTH_SAMPLES →
      needsJitterBuffer (mkRing b n (Some e)) = false ∧
      ∃ b', receivePacket (mkRing b n (Some e)) receivedData
              = Some (mkRing b' n (Some (e + PACKET_LENGTH_SAMPLES))) ∧
            length b' = length b ∧
            samplesAt b' e PACKET_LENGTH_SAMPLES = receivedData).
  { intros b n e receivedData Hb Hlen He Hfit Hdiff.
    assert (Hneeds : needsJitterBuffer (mkRing b n (Some e)) = false).
    { unfold needsJitterBuffer, diffLastWriteNextOutput, capacity. cbn.
      rewrite Hb. apply bool_decide_eq_false. lia. }
    split; [done|]. unfold receivePacket. rewrite Hneeds. cbn [endOfLastWrite].
    unfold bufferOverlap, capacity. cbn [buffer]. rewrite Hb.
    rewrite decide_True by lia.
    destruct (appendPacket_spec (mkRing b n (Some e)) receivedData e)
      as (b' & -> & ? & ? & _); [done|done|unfold capacity; cbn; lia|done|].
    eauto. }
  split.
  { intros rb receivedData Hcap Hlen Hneeds.
    destruct (Hgen rb receivedData Hcap Hlen Hneeds) as (b' & -> & _ & ? & ?).
    eexists. by repeat split. }
  destruct (Hgen (AudioRingBuffer_new contents) p1 Hc H1 eq_refl)
    as (b1 & Hr1 & Hl1 & Hz1 & Hp1).
  cbn in Hr1, Hl1.
  destruct (Happ b1 0 (jitterBufferSamples + PACKET_LENGTH_SAMPLES) p2)
    as (Hn1 & b2 & Hr2 & Hl2 & Hp2); [by rewrite Hl1|done|done|done|done|].
  destruct (Happ b2 0 (jitterBufferSamples + PACKET_LENGTH_SAMPLES + PACKET_LENGTH_SAMPLES) p3)
    as (Hn2 & b3 & Hr3 & Hl3 & Hp3); [by rewrite Hl2, Hl1|done|done|done|done|].
  destruct (Hgen (mkRing b3 0 (Some (jitterBufferSamples + PACKET_LENGTH_SAMPLES
                                     + PACKET_LENGTH_SAMPLES + PACKET_LENGTH_SAMPLES))) p4)
    as (b4 & Hr4 & Hl4 & Hz4 & Hp4).
  { unfold capacity. cbn. by rewrite Hl3, Hl2, Hl1. }
  { done. }
  { unfold needsJitterBuffer, diffLastWriteNextOutput, capacity. cbn.
    rewrite Hl3, Hl2, Hl1, Hc. reflexivity. }
  do 4 eexists.
  split; [exact Hr1|]. cbn [endOfLastWrite buffer nextOutput].
  split; [done|]. split; [done|]. split; [done|]. split; [exact Hn1|].
  split; [exact Hr2|]. split; [done|]. split; [done|]. split; [exact Hn2|].
  split; [exact Hr3|]. split; [done|]. split; [done|].
  split; [unfold bufferOverlap, capacity; cbn; rewrite Hl3, Hl2, Hl1, Hc; reflexivity|].
  split.
  { unfold needsJitterBuffer, diffLastWriteNextOutput, capacity. cbn.
    rewrite Hl3, Hl2, Hl1, Hc. reflexivity. }
  split; [exact Hr4|]. by repeat split.
Qed.

Lemma cushion_then_whole_frames_witness :
  Z.of_nat (length staleStore) = RING_BUFFER_SIZE_SAMPLES ∧
  Z.of_nat (length (flatPacket 1)) = PACKET_LENGTH_SAMPLES ∧
  ∃ rb3 rb4,
    receiveAudioViaUDP [flatPacket 1; flatPacket 2; flatPacket 3]
      (AudioRingBuffer_new staleStore) = Some rb3 ∧
    endOfLastWrite rb3 = Some 1602 ∧
    receivePacket rb3 (flatPacket 4) = Some rb4 ∧
    endOfLastWrite rb4 = Some 578.
Proof.
  split; [reflexivity|]. split; [reflexivity|].
  destruct (cushion_then_whole_frames staleStore
              (flatPacket 1) (flatPacket 2) (flatPacket 3) (flatPacket 4))
    as (_ & _ & rb1 & rb2 & rb3 & rb4 & Hr1 & _ & _ & _ & _ & Hr2 & _ & _ & _ & Hr3 & He3
        & _ & _ & _ & Hr4 & He4 & _); [reflexivity..|].
  exists rb3, rb4. cbn [receiveAudioViaUDP].
  rewrite Hr1. cbn [mbind option_bind]. rewrite Hr2. cbn [mbind option_bind].
  rewrite Hr3. cbn [mbind option_bind].
  split; [reflexivity|]. split; [rewrite He3; reflexivity|].
  split; [exact Hr4|]. rewrite He4. reflexivity.
Defined.

(** The wrap path in a running session: the frontier is then 446 samples
    before the store end; the first 446 samples of the packet fill the store
    to its end, and the 66 samples written at the store start are read from
    offset 66 of the packet, its samples 66..131, where the packet's last 66
    samples (from offset 446) were due. *)
Lemma receivePacket_wrap rb receivedData e :
  reachable rb → Z.of_nat (length receivedData) = PACKET_LENGTH_SAMPLES →
  endOfLastWrite rb = Some e → needsJitterBuffer rb = false →
  bufferOverlap rb e PACKET_LENGTH_SAMPLES ≠ 0 →
  e = RING_BUFFER_SIZE_SAMPLES - 446 ∧
  ∃ rb', receivePacket rb receivedData = Some rb' ∧
         endOfLastWrite rb' = Some (PACKET_LENGTH_SAMPLES - 446) ∧
         samplesAt (buffer rb') e 446 = samplesAt receivedData 0 446 ∧
         samplesAt (buffer rb') 0 (PACKET_LENGTH_SAMPLES - 446)
           = samplesAt receivedData (PACKET_LENGTH_SAMPLES - 446) (PACKET_LENGTH_SAMPLES - 446).
Proof.
  intros Hr Hlen He Hneeds Hov.
  pose proof (reachable_ringInv rb Hr) as (Hcap & Hn & Hf). specialize (Hf e He).
  unfold receivePacket. rewrite Hneeds, He.
  destruct (bufferOverlap_cases rb e Hcap Hf) as [(Hov0 & _)|(Hov' & ->)]; [done|].
  split; [reflexivity|]. rewrite Hov'. rewrite decide_False by done.
  destruct (wrapPacket_spec rb receivedData
              (RING_BUFFER_SIZE_SAMPLES - PACKET_LENGTH_SAMPLES + jitterBufferSamples)
              jitterBufferSamples)
    as (b' & -> & _ & Hhead & Htail); [rewrite ?Hcap; consts; lia..|].
  eexists. split; [reflexivity|]. cbn. by repeat split.
Qed.

(** C1, the code at a failing input: three packets in and one frame played,
    the frontier is at 2048 - 446 and the next packet crosses the store
    boundary.  Its first 446 samples land at the end of the store and the
    frontier becomes 66, but the 66 samples at the store start are samples
    67..132 of the packet instead of its last 66, so reading the two pieces
    back does not give the packet. *)
Theorem wrap_tail_copied_from_wrong_offset :
  reachable ringBeforeWrap ∧
  endOfLastWrite ringBeforeWrap = Some (RING_BUFFER_SIZE_SAMPLES - 446) ∧
  needsJitterBuffer ringBeforeWrap = false ∧
  ∃ rb', receivePacket ringBeforeWrap rampPacket = Some rb' ∧
         endOfLastWrite rb' = Some (PACKET_LENGTH_SAMPLES - 446) ∧
         samplesAt (buffer rb') (RING_BUFFER_SIZE_SAMPLES - 446) 446 = seqZ 1 446 ∧
         samplesAt (buffer rb') 0 66 = seqZ 67 66 ∧
         samplesAt rampPacket 446 66 = seqZ 447 66 ∧
         samplesAt (buffer rb') (RING_BUFFER_SIZE_SAMPLES - 446) 446
           ++ samplesAt (buffer rb') 0 66 ≠ rampPacket.
Proof.
  split; [apply reachable_ringBeforeWrap|]. split; [reflexivity|]. split; [reflexivity|].
  eexists. split; [vm_compute; reflexivity|]. cbn [buffer endOfLastWrite].
  split; [reflexivity|]. split; [vm_compute; reflexivity|].
  split; [vm_compute; reflexivity|]. split; [vm_compute; reflexivity|].
  intros Heq. apply (f_equal (λ l, l !! 446%nat)) in Heq. vm_compute in Heq. discriminate.
Qed.

(** ** The sample loop of the positioned-sources branch *)

Section MixLoop.
Variable scaleByDistance : Z → Z.
Variable addPhaseScaled : Z → Z → Z.
Variable numSamplesDelay : Z.
Variable source : AudioSource.
Variable startPointer : Z.
Hypothesis delay_nonneg : 0 ≤ numSamplesDelay.

Let mix1 := mixSample scaleByDistance addPhaseScaled numSamplesDelay source startPointer.
Let mixN := mixSamples scaleByDistance addPhaseScaled numSamplesDelay source startPointer.

Lemma mixSamples_app l1 l2 m :
  mixN (l1 ++ l2) m = m' ← mixN l1 m; mixN l2 m'.
Proof.
  revert m. induction l1 as [|i l1 IH]; intros m; cbn; [done|].
  destruct (mixSample _ _ _ _ _ i m) as [m1|]; cbn; [apply IH|done].
Qed.

(** What the loop has done to the three buffers once indices [0..k) are
    processed: every processed sample of the queue is scaled in place; the
    leading channel got the scaled sample; the trailing channel, at the
    indices past the delay, got the scaled sample [numSamplesDelay]
    places earlier, and nothing else. *)
Lemma mixSamples_prefix m0 k m :
  mixN (seq 0 k) m0 = Some m →
  (∀ j, (j < k)%nat → is_Some (samplesToQueue m0 !! j)) ∧
  (∀ j, (j < k)%nat →
        samplesToQueue m !! j = scaleByDistance <$> samplesToQueue m0 !! j) ∧
  (∀ j, (k ≤ j)%nat → samplesToQueue m !! j = samplesToQueue m0 !! j) ∧
  (∀ j, (j < k)%nat →
        leadingOutput m !! j
        = (l ← leadingOutput m0 !! j; x ← samplesToQueue m0 !! j;
           Some (wrap16 (l + scaleByDistance x)))) ∧
  (∀ j, (k ≤ j)%nat → leadingOutput m !! j = leadingOutput m0 !! j) ∧
  (∀ j, (j < k)%nat → (Z.to_nat numSamplesDelay ≤ j)%nat →
        trailingOutput m !! j
        = (t ← trailingOutput m0 !! j;
           x ← samplesToQueue m0 !! (j - Z.to_nat numSamplesDelay)%nat;
           Some (wrap16 (t + scaleByDistance x)))) ∧
  (∀ j, (k ≤ j)%nat → trailingOutput m !! j = trailingOutput m0 !! j).
Proof.
  revert m. induction k as [|k IH]; intros m.
  - cbn. intros [= <-]. repeat split; intros; (lia || done).
  - rewrite seq_S, mixSamples_app. cbn [Nat.add].
    destruct (mixN (seq 0 k) m0) as [mk|] eqn:Hk; [|done]. cbn [mbind option_bind].
    destruct (IH mk eq_refl) as (Hq0 & Hq1 & Hq2 & Hl1 & Hl2 & Ht1 & Ht2). clear IH.
    cbn [mixN mixSamples]. fold mix1.
    destruct (mix1 k mk) as [m'|] eqn:Hstep; [|done]. cbn. intros [= <-].
    unfold mix1, mixSample in Hstep.
    destruct (samplesToQueue mk !! k) as [x|] eqn:Hx; [|done]. cbn in Hstep.
    rewrite list_lookup_insert_eq in Hstep by (by eapply lookup_lt_Some). cbn in Hstep.
    destruct (leadingOutput mk !! k) as [l|] eqn:Hl; [|done]. cbn in Hstep.
    destruct (trailingOutput mk !! k) as [t|] eqn:Ht; [|done]. cbn in Hstep.
    rewrite Hq2 in Hx by lia. rewrite Hl2 in Hl by lia. rewrite Ht2 in Ht by lia.
    assert (Hsome : ∀ j, (j < S k)%nat → is_Some (samplesToQueue m0 !! j)).
    { intros j Hj. destruct (decide (j = k)) as [->|Hne]; [by eexists|].
      apply Hq0. lia. }
    assert (Hqueue : ∀ j, (j < S k)%nat →
              <[k:=scaleByDistance x]> (samplesToQueue mk) !! j
              = scaleByDistance <$> samplesToQueue m0 !! j).
    { intros j Hj. destruct (decide (j = k)) as [->|Hne].
      - rewrite list_lookup_insert_eq, Hx;
          [done|rewrite <- Hq2 in Hx by lia; by eapply lookup_lt_Some].
      - rewrite list_lookup_insert_ne by done. apply Hq1. lia. }
    assert (Hlead : ∀ j, (j < S k)%nat →
              <[k:=wrap16 (l + scaleByDistance x)]> (leadingOutput mk) !! j
              = (l ← leadingOutput m0 !! j; x ← samplesToQueue m0 !! j;
                 Some (wrap16 (l + scaleByDistance x)))).
    { intros j Hj. destruct (decide (j = k)) as [->|Hne].
      - rewrite list_lookup_insert_eq, Hl, Hx;
          [done|rewrite <- Hl2 in Hl by lia; by eapply lookup_lt_Some].
      - rewrite list_lookup_insert_ne by done. apply Hl1. lia. }
    case_decide as Hdelay.
    + unfold sampleAt in Hstep. rewrite decide_True in Hstep by lia.
      destruct (_ !! Z.to_nat (Z.of_nat k - numSamplesDelay)) as [xd|] eqn:Hxd; [|done].
      cbn in Hstep. injection Hstep as <-. cbn.
      replace (Z.to_nat (Z.of_nat k - numSamplesDelay))
        with (k - Z.to_nat numSamplesDelay)%nat in Hxd by lia.
      rewrite Hqueue in Hxd by lia.
      split; [done|].
      split; [done|]. split; [intros; rewrite list_lookup_insert_ne by lia; auto with lia|].
      split; [done|]. split; [intros; rewrite list_lookup_insert_ne by lia; auto with lia|].
      split; [|intros; rewrite list_lookup_insert_ne by lia; auto with lia].
      intros j Hj Hdj. destruct (decide (j = k)) as [->|Hne].
      * rewrite list_lookup_insert_eq, Ht;
          [|rewrite <- Ht2 in Ht by lia; by eapply lookup_lt_Some].
        cbn.
        destruct (samplesToQueue m0 !! (k - Z.to_nat numSamplesDelay)%nat) as [x0|];
          [|done].
        cbn in Hxd. by injection Hxd as <-.
      * rewrite list_lookup_insert_ne by done. apply Ht1; lia.
    + destruct (sampleAt (sourceData source) _) as [s|]; [|done].
      cbn in Hstep. injection Hstep as <-. cbn.
      split; [done|].
      split; [done|]. split; [intros; rewrite list_lookup_insert_ne by lia; auto with lia|].
      split; [done|]. split; [intros; rewrite list_lookup_insert_ne by lia; auto with lia|].
      split; [|intros; rewrite list_lookup_insert_ne by lia; auto with lia].
      intros j Hj Hdj. rewrite list_lookup_insert_ne by lia. apply Ht1; lia.
Qed.

End MixLoop.

Lemma silence_lookup (j : nat) :
  (j < Z.to_nat BUFFER_LENGTH_SAMPLES)%nat → silence !! j = Some 0.
Proof. intros. unfold silence. by apply lookup_replicate_2. Qed.

(** C2, what the code does: for the first source mixed into the zeroed
    output channels, at every output index [i] from [numSamplesDelay] on the
    trailing channel receives exactly the sample the leading channel received
    [numSamplesDelay] places earlier, the frame sample scaled by
    [distanceAmpRatio / NUM_AUDIO_SOURCES] only; the phase amplitude ratio
    (the second scaling operation) takes no part. *)
Theorem trailing_is_delayed_leading_unattenuated
    scaleByDistance addPhaseScaled numSamplesDelay angleToSourcePositive
    source queue frame source' source'' queue' outLeft outRight (i : nat) :
  0 ≤ numSamplesDelay →
  (Z.to_nat numSamplesDelay ≤ i < Z.to_nat BUFFER_LENGTH_SAMPLES)%nat →
  pullFrame queue source = Some (frame, source') →
  mixSource scaleByDistance addPhaseScaled numSamplesDelay angleToSourcePositive
    source queue silence silence = Some (source'', queue', outLeft, outRight) →
  ∃ x, frame !! (i - Z.to_nat numSamplesDelay)%nat = Some x ∧
       (if angleToSourcePositive then outLeft else outRight)
         !! (i - Z.to_nat numSamplesDelay)%nat = Some (wrap16 (0 + scaleByDistance x)) ∧
       (if angleToSourcePositive then outRight else outLeft) !! i
         = Some (wrap16 (0 + scaleByDistance x)).
Proof.
  intros Hd Hi Hpull. unfold mixSource. rewrite Hpull. cbn [mbind option_bind].
  destruct (mixSamples _ _ _ _ _ _ _) as [m|] eqn:Hmix; [|done].
  cbn [mbind option_bind]. intros [= _ _ <- <-].
  apply mixSamples_prefix in Hmix as (Hsome & _ & _ & Hlead & _ & Htrail & _); [|done].
  cbn [samplesToQueue leadingOutput trailingOutput] in Hsome, Hlead, Htrail.
  destruct (Hsome (i - Z.to_nat numSamplesDelay)%nat) as [x Hx]; [lia|].
  exists x. split; [done|].
  specialize (Hlead (i - Z.to_nat numSamplesDelay)%nat).
  specialize (Htrail i).
  rewrite Hx in Hlead, Htrail.
  replace (if angleToSourcePositive then silence else silence) with silence
    in Hlead, Htrail by (by destruct angleToSourcePositive).
  rewrite silence_lookup in Hlead, Htrail by lia.
  cbn [mbind option_bind] in Hlead, Htrail.
  destruct angleToSourcePositive; split; (apply Hlead || apply Htrail); lia.
Qed.

Lemma trailing_is_delayed_leading_unattenuated_witness :
  0 ≤ PHASE_DELAY_AT_90 ∧
  (Z.to_nat PHASE_DELAY_AT_90 ≤ 100 < Z.to_nat BUFFER_LENGTH_SAMPLES)%nat ∧
  ∃ source' queue' outLeft outRight,
    mixSource (scaleExact 1 4) (addScaledExact 1 8) PHASE_DELAY_AT_90 true toneSource
      silence silence silence = Some (source', queue', outLeft, outRight) ∧
    outLeft !! 100%nat = Some 250 ∧
    outRight !! 100%nat = Some 250 ∧
    outRight !! 5%nat = Some 125.
Proof.
  split; [vm_compute; discriminate|]. split; [vm_compute; lia|].
  destruct (pullFrame silence toneSource) as [[frame source']|] eqn:Hpull;
    [|vm_compute in Hpull; discriminate].
  destruct (mixSource (scaleExact 1 4) (addScaledExact 1 8) PHASE_DELAY_AT_90 true toneSource
              silence silence silence) as [[[[source'' queue'] outLeft] outRight]|] eqn:Hmix;
    [|vm_compute in Hmix; discriminate].
  destruct (trailing_is_delayed_leading_unattenuated
              (scaleExact 1 4) (addScaledExact 1 8) PHASE_DELAY_AT_90 true toneSource silence
              frame source' source'' queue' outLeft outRight 100)
    as (x & Hx & Hlead & Htrail);
    [vm_compute; discriminate | vm_compute; lia | exact Hpull | exact Hmix |].
  exists source'', queue', outLeft, outRight. split; [reflexivity|].
  vm_compute in Hpull. injection Hpull as <- <-.
  vm_compute in Hx. injection Hx as <-.
  split; [|split; [exact Htrail|]];
    vm_compute in Hmix; injection Hmix as <- <- <- <-; reflexivity.
Defined.

(** ** Session start *)

(** [init] never looks at what [Pa_StartStream] returned. *)
Lemma init_ignores_Pa_StartStream pa e st data :
  init pa st data
  = init (mkPortAudio (Pa_Initialize pa) (Pa_OpenDefaultStream pa) e) st data.
Proof. reflexivity. Qed.

(** Whenever [init] returns, it returns [false]: its success path returns
    [paNoError], which is 0. *)
Lemma init_returns_false pa st data st' data' result :
  init pa st data = InitReturned st' data' result → result = false.
Proof.
  unfold init, init_error. cbn [err].
  destruct (decide (Pa_Initialize pa ≠ paNoError)).
  { destruct data; [by intros [= _ _ <-]|done..]. }
  destruct (decide (Pa_OpenDefaultStream pa ≠ paNoError)); [done|].
  by intros [= _ _ <-].
Qed.


(** C4, the code at a failing input: the library initializes, the stream
    opens, and starting the stream fails with [paInternalError].  [init]
    leaves [initialized] true and [err] at [paNoError] and writes nothing to
    [stderr], exactly as when the stream starts; the same failure code from
    the open step is noticed: it is kept in [err] and written out and
    [initialized] is left false (after which line 342 applies [delete[]] to
    the object of line 297). *)
Theorem init_misses_stream_start_failure :
  init (mkPortAudio paNoError paNoError paInternalError)
    (mkStatics false paNoError []) NullPointer
  = InitReturned (mkStatics true paNoError []) ObjectFromNew false ∧
  init (mkPortAudio paNoError paNoError paInternalError)
    (mkStatics false paNoError []) NullPointer
  = init (mkPortAudio paNoError paNoError paNoError)
      (mkStatics false paNoError []) NullPointer ∧
  init (mkPortAudio paNoError paInternalError paNoError)
    (mkStatics false paNoError []) NullPointer
  = InitUndefined
      (mkStatics false paInternalError [FailedToInitialize; PortAudioError paInternalError])
      ObjectFromNew.
Proof. repeat split. Qed.


(** * Further properties of the relay path *)

(** Where a packet leaves the frontier, read off the three write strategies. *)
Lemma receivePacket_frontier rb receivedData :
  ringInv rb → Z.of_nat (length receivedData) = PACKET_LENGTH_SAMPLES →
  ∃ rb', receivePacket rb receivedData = Some rb' ∧
         nextOutput rb' = nextOutput rb ∧
         length (buffer rb') = length (buffer rb) ∧
         endOfLastWrite rb'
         = Some (if needsJitterBuffer rb then 578
                 else match endOfLastWrite rb with
                      | Some e => if decide (e = 1602) then 66 else e + 512
                      | None => 578
                      end).
Proof.
  intros (Hcap & Hn & Hf) Hlen. unfold receivePacket.
  destruct (needsJitterBuffer rb) eqn:Hneeds.
  - destruct (injectJitterBuffer_spec rb receivedData Hcap Hlen) as (b' & -> & Hlb & _).
    eexists. by repeat split.
  - destruct (endOfLastWrite rb) as [e|] eqn:He;
      [|by unfold needsJitterBuffer in Hneeds; rewrite He in Hneeds].
    specialize (Hf e eq_refl).
    destruct (bufferOverlap_cases rb e Hcap Hf) as [(Hov & Hfit & Hnext)|(Hov & ->)];
      rewrite Hov.
    + rewrite decide_True by done.
      assert (0 ≤ e) by (apply frontierOk_cases in Hf; lia).
      destruct (appendPacket_spec rb receivedData e He) as (b' & -> & Hlb & _); [done..|].
      eexists. split; [reflexivity|]. cbn. split; [done|]. split; [done|].
      revert Hfit. rewrite Hcap. consts. intros Hfit.
      rewrite decide_False by lia. reflexivity.
    + rewrite decide_False by done.
      destruct (wrapPacket_spec rb receivedData
                  (RING_BUFFER_SIZE_SAMPLES - PACKET_LENGTH_SAMPLES + jitterBufferSamples)
                  jitterBufferSamples)
        as (b' & -> & Hlb & _); [rewrite ?Hcap; consts; lia..|].
      eexists. by repeat split.
Qed.

(** X1: who writes what.  A packet never moves the read cursor, never
    changes the size of the store and always leaves the frontier set.  A
    callback never writes the store, hands the captured input to the socket
    unchanged, puts the same frame on both channels, and touches the frontier
    only to unset it. *)
Theorem ring_write_sets rb receivedData inputLeft :
  (∀ rb', receivePacket rb receivedData = Some rb' →
          nextOutput rb' = nextOutput rb ∧
          length (buffer rb') = length (buffer rb) ∧
          is_Some (endOfLastWrite rb')) ∧
  (∀ r, audioCallback inputLeft rb = Some r →
        buffer (cb_ring r) = buffer rb ∧
        cb_sent r = inputLeft ∧
        outputRight r = outputLeft r ∧
        (endOfLastWrite (cb_ring r) = endOfLastWrite rb ∨
         endOfLastWrite (cb_ring r) = None)).
Proof.
  split.
  - intros rb'. unfold receivePacket.
    destruct (needsJitterBuffer rb).
    + unfold injectJitterBuffer, memset0.
      case_decide; [|done]. cbn [mbind option_bind].
      destruct (memcpy _ _ _ _ _) as [b2|] eqn:Hc; [|done]. cbn. intros [= <-].
      apply memcpy_inv in Hc as (_ & ->). cbn.
      split; [done|]. split; [by rewrite !length_inserts|]. by eexists.
    + destruct (endOfLastWrite rb) as [e|] eqn:He; [|done].
      case_decide.
      * unfold appendPacket.
        destruct (memcpy _ _ _ _ _) as [b1|] eqn:Hc; [|done]. cbn. intros [= <-].
        apply memcpy_inv in Hc as (_ & ->). cbn. rewrite He.
        split; [done|]. split; [by rewrite length_inserts|]. by eexists.
      * unfold wrapPacket.
        destruct (memcpy (buffer rb) _ _ _ _) as [b1|] eqn:Hc1; [|done].
        cbn [mbind option_bind].
        destruct (memcpy b1 _ _ _ _) as [b2|] eqn:Hc2; [|done]. cbn. intros [= <-].
        apply memcpy_inv in Hc1 as (_ & ->). apply memcpy_inv in Hc2 as (_ & ->). cbn.
        split; [done|]. split; [by rewrite !length_inserts|]. by eexists.
  - intros r. unfold audioCallback.
    destruct (endOfLastWrite rb) as [e|] eqn:He.
    + destruct (memcpy _ _ _ _ _) as [q|]; [|done]. cbn [mbind option_bind].
      case_decide; intros [= <-]; cbn; rewrite ?He; auto.
    + intros [= <-]. cbn. auto.
Qed.

(** X2: a running session never faults.  Whatever packets and callbacks
    came before, the next packet and the next callback both run to their end:
    no [memcpy] or [memset] of either reaches outside the store, the packet
    array or the frame buffer. *)
Theorem session_never_faults rb :
  reachable rb →
  (∀ receivedData, Z.of_nat (length receivedData) = PACKET_LENGTH_SAMPLES →
                   is_Some (receivePacket rb receivedData)) ∧
  (∀ inputLeft, is_Some (audioCallback inputLeft rb)).
Proof.
  intros Hr. pose proof (reachable_ringInv rb Hr) as Hinv. split.
  - intros receivedData Hlen.
    destruct (receivePacket_ringInv rb receivedData Hinv Hlen) as (rb' & -> & _).
    by eexists.
  - intros inputLeft.
    destruct (audioCallback_ringInv inputLeft rb Hinv) as (r & -> & _). by eexists.
Qed.

Lemma session_never_faults_witness :
  reachable ringBeforeWrap ∧
  is_Some (receivePacket ringBeforeWrap rampPacket) ∧
  is_Some (audioCallback None ringBeforeWrap).
Proof.
  split; [apply reachable_ringBeforeWrap|].
  destruct (session_never_faults ringBeforeWrap reachable_ringBeforeWrap) as (Hp & Hc).
  split; [apply Hp; reflexivity | apply Hc].
Defined.

(** Evaluate the closed distances [(e - n) mod 2048] in the goal. *)
Ltac eval_mods :=
  repeat match goal with
  | |- context [?a `mod` 2048] =>
      let v := eval vm_compute in (a `mod` 2048) in
      progress change (a `mod` 2048) with v
  | |- context [?a + 512] =>
      let v := eval vm_compute in (a + 512) in
      progress change (a + 512) with v
  end.

Lemma diff_cases rb e :
  ringInv rb → endOfLastWrite rb = Some e →
  diffLastWriteNextOutput rb = (e - nextOutput rb) `mod` 2048 ∧
  (diffLastWriteNextOutput rb = 66 ∨ diffLastWriteNextOutput rb = 578 ∨
   diffLastWriteNextOutput rb = 1090 ∨ diffLastWriteNextOutput rb = 1602).
Proof.
  intros (Hcap & Hn & Hf) He. specialize (Hf e He).
  unfold diffLastWriteNextOutput. rewrite He, Hcap. split; [reflexivity|].
  apply aligned_cases in Hn. apply frontierOk_cases in Hf.
  destruct Hn as [-> | [-> | [-> | ->]]]; destruct Hf as [-> | [-> | [-> | ->]]];
    vm_compute; auto.
Qed.

(** X3: in a running session the distance from the read cursor to a set
    frontier is always the cushion plus a whole number of frames: 66, 578,
    1090 or 1602 samples.  So the frontier never meets the cursor, and the
    two thresholds are never met exactly: "less than one frame" only ever
    means 66 samples, and "more than capacity minus one frame" only ever
    means 1602. *)
Theorem lead_is_cushion_plus_whole_frames rb e :
  reachable rb → endOfLastWrite rb = Some e →
  (∃ k, 0 ≤ k < RING_BUFFER_FRAMES ∧
        diffLastWriteNextOutput rb = jitterBufferSamples + BUFFER_LENGTH_SAMPLES * k) ∧
  e ≠ nextOutput rb ∧
  (diffLastWriteNextOutput rb < BUFFER_LENGTH_SAMPLES ↔
   diffLastWriteNextOutput rb = jitterBufferSamples) ∧
  (diffLastWriteNextOutput rb > RING_BUFFER_SIZE_SAMPLES - PACKET_LENGTH_SAMPLES ↔
   diffLastWriteNextOutput rb
   = RING_BUFFER_SIZE_SAMPLES - PACKET_LENGTH_SAMPLES + jitterBufferSamples).
Proof.
  intros Hr He. pose proof (reachable_ringInv rb Hr) as Hinv.
  destruct (diff_cases rb e Hinv He) as (_ & Hd).
  destruct Hinv as (_ & Hn & Hf). specialize (Hf e He).
  apply aligned_cases in Hn. apply frontierOk_cases in Hf.
  change RING_BUFFER_FRAMES with 4. consts.
  split; [|split; [lia|split; lia]].
  destruct Hd as [-> | [-> | [-> | ->]]];
    [exists 0|exists 1|exists 2|exists 3]; lia.
Qed.

Lemma lead_is_cushion_plus_whole_frames_witness :
  reachable ringBeforeWrap ∧ endOfLastWrite ringBeforeWrap = Some 1602 ∧
  diffLastWriteNextOutput ringBeforeWrap = 66 + 512 * 2.
Proof.
  split; [apply reachable_ringBeforeWrap|]. split; [reflexivity|].
  destruct (lead_is_cushion_plus_whole_frames ringBeforeWrap 1602
              reachable_ringBeforeWrap eq_refl) as ((k & Hk & Hd) & _).
  rewrite Hd. vm_compute in Hd. vm_compute. lia.
Defined.

(** X4: the bookkeeping of the lead in a running session.  A callback
    unsets the frontier exactly when the distance from the cursor to the
    frontier was at least one frame and below two; otherwise it shortens the
    distance by one frame round the store (a distance below one frame comes
    out as that distance plus three frames: the cursor has passed the
    frontier).  A packet written without a cushion lengthens the distance by
    exactly one frame, also when the write wraps; a cushion resets the
    frontier to 578 whatever the cursor is. *)
Theorem lead_bookkeeping rb e receivedData inputLeft :
  reachable rb → endOfLastWrite rb = Some e →
  Z.of_nat (length receivedData) = PACKET_LENGTH_SAMPLES →
  (∃ r, audioCallback inputLeft rb = Some r ∧
        (endOfLastWrite (cb_ring r) = None ↔
         BUFFER_LENGTH_SAMPLES ≤ diffLastWriteNextOutput rb < 2 * BUFFER_LENGTH_SAMPLES) ∧
        (is_Some (endOfLastWrite (cb_ring r)) →
         diffLastWriteNextOutput (cb_ring r)
         = (diffLastWriteNextOutput rb - BUFFER_LENGTH_SAMPLES)
             `mod` RING_BUFFER_SIZE_SAMPLES)) ∧
  (∃ rb', receivePacket rb receivedData = Some rb' ∧
          (needsJitterBuffer rb = false →
           diffLastWriteNextOutput rb'
           = diffLastWriteNextOutput rb + PACKET_LENGTH_SAMPLES) ∧
          (needsJitterBuffer rb = true →
           endOfLastWrite rb' = Some (jitterBufferSamples + PACKET_LENGTH_SAMPLES))).
Proof.
  intros Hr He Hlen. pose proof (reachable_ringInv rb Hr) as Hinv. split.
  - destruct (audioCallback_ringInv inputLeft rb Hinv)
      as (r & Hcb & Hinv' & Hbuf & _ & _ & Hcase).
    exists r. split; [done|]. rewrite He in Hcase. destruct Hcase as (Hnext & _ & Hst).
    assert (Hd' : diffLastWriteNextOutput (advanceNextOutput rb)
                  = (e - nextOutput (cb_ring r)) `mod` 2048).
    { unfold diffLastWriteNextOutput, capacity, advanceNextOutput, set_nextOutput.
      cbn. rewrite He, Hnext. destruct Hinv as (Hcap & _).
      unfold capacity in Hcap. rewrite Hcap. reflexivity. }
    assert (Hdr : ∀ e', endOfLastWrite (cb_ring r) = Some e' →
              diffLastWriteNextOutput (cb_ring r) = (e' - nextOutput (cb_ring r)) `mod` 2048).
    { intros e' He'. by destruct (diff_cases (cb_ring r) e' Hinv' He'). }
    destruct (diff_cases rb e Hinv He) as (Hd & _).
    rewrite Hd' in Hst. rewrite Hd. rewrite Hnext in *. clear Hd Hd' Hcb Hinv' Hbuf.
    destruct Hinv as (Hcap & Hn & Hf). specialize (Hf e He).
    unfold advanceNextOutput, set_nextOutput in *. cbn [nextOutput] in *.
    apply aligned_cases in Hn. apply frontierOk_cases in Hf. revert Hst Hdr. consts.
    destruct Hn as [-> | [-> | [-> | ->]]]; destruct Hf as [-> | [-> | [-> | ->]]];
      eval_mods; intros Hst Hdr; case_decide as Hc; try (exfalso; lia);
      destruct Hst as (Hfr & _); rewrite Hfr;
      (split; [split; intros Hx; first [lia | done | exfalso; lia]|]);
      intros [e' He']; first [done | injection He' as <-];
      rewrite (Hdr _ Hfr); eval_mods; reflexivity.
  - destruct (receivePacket_frontier rb receivedData Hinv Hlen)
      as (rb' & Hrecv & Hnext & Hlb & Hfr).
    exists rb'. split; [done|]. split.
    + intros Hneeds. rewrite Hneeds, He in Hfr.
      destruct (diff_cases rb e Hinv He) as (Hd & _). rewrite Hd.
      unfold diffLastWriteNextOutput, capacity. rewrite Hfr, Hnext, Hlb.
      assert (Hnj : ¬ diffLastWriteNextOutput rb > 1536).
      { unfold needsJitterBuffer in Hneeds. rewrite He in Hneeds.
        by apply bool_decide_eq_false in Hneeds. }
      rewrite Hd in Hnj. clear Hd Hfr Hrecv Hneeds.
      destruct Hinv as (Hcap & Hn & Hf). specialize (Hf e He).
      unfold capacity in Hcap. rewrite Hcap. consts.
      apply aligned_cases in Hn. apply frontierOk_cases in Hf. revert Hnj.
      destruct Hn as [-> | [-> | [-> | ->]]]; destruct Hf as [-> | [-> | [-> | ->]]];
        eval_mods; intros Hnj; try (exfalso; lia); reflexivity.
    + intros Hneeds. by rewrite Hneeds in Hfr.
Qed.

Lemma lead_bookkeeping_witness :
  reachable ringAfter1 ∧ endOfLastWrite ringAfter1 = Some 578 ∧
  Z.of_nat (length (flatPacket 2)) = PACKET_LENGTH_SAMPLES ∧
  ∃ rb', receivePacket ringAfter1 (flatPacket 2) = Some rb' ∧
         diffLastWriteNextOutput rb' = 1090.
Proof.
  split; [apply reachable_ringAfter1|]. split; [reflexivity|]. split; [reflexivity|].
  destruct (lead_bookkeeping ringAfter1 578 (flatPacket 2) None
              reachable_ringAfter1 eq_refl eq_refl)
    as (_ & rb' & Hrecv & Hadd & _).
  exists rb'. split; [exact Hrecv|]. rewrite Hadd; reflexivity.
Defined.

(** X5: a lead below one frame is not caught.  In a running session, when
    the frontier is less than one frame ahead of the cursor, the callback
    plays those 66 samples and 446 samples of silence, prints nothing and
    leaves the frontier set; the cursor is then past the frontier, the
    distance round the store reads 1602, and the next packet therefore
    injects a cushion. *)
Theorem short_lead_is_overtaken rb inputLeft :
  reachable rb → is_Some (endOfLastWrite rb) →
  diffLastWriteNextOutput rb < BUFFER_LENGTH_SAMPLES →
  ∃ r, audioCallback inputLeft rb = Some r ∧
       outputLeft r
         = samplesAt (buffer rb) (nextOutput rb) jitterBufferSamples
           ++ replicate (Z.to_nat (BUFFER_LENGTH_SAMPLES - jitterBufferSamples)) 0 ∧
       cb_stdout r = [] ∧
       endOfLastWrite (cb_ring r) = endOfLastWrite rb ∧
       diffLastWriteNextOutput (cb_ring r)
         = RING_BUFFER_SIZE_SAMPLES - PACKET_LENGTH_SAMPLES + jitterBufferSamples ∧
       needsJitterBuffer (cb_ring r) = true.
Proof.
  intros Hr [e He] Hshort. pose proof (reachable_ringInv rb Hr) as Hinv.
  destruct (audioCallback_ringInv inputLeft rb Hinv)
    as (r & Hcb & Hinv' & Hbuf & _ & _ & Hcase).
  exists r. split; [done|]. rewrite He in Hcase. destruct Hcase as (Hnext & Hout & Hst).
  destruct (diff_cases rb e Hinv He) as (Hd & _). rewrite Hd in Hshort.
  assert (Hd' : diffLastWriteNextOutput (advanceNextOutput rb)
                = (e - nextOutput (cb_ring r)) `mod` 2048).
  { unfold diffLastWriteNextOutput, capacity, advanceNextOutput, set_nextOutput.
    cbn. rewrite He, Hnext. destruct Hinv as (Hcap & _).
    unfold capacity in Hcap. rewrite Hcap. reflexivity. }
  rewrite Hd' in Hst.
  assert (Htail : silentTail rb e = 446 ∧ (e - nextOutput (cb_ring r)) `mod` 2048 = 1602).
  { rewrite Hnext. unfold silentTail, advanceNextOutput, set_nextOutput. cbn [nextOutput].
    destruct Hinv as (_ & Hn & Hf). specialize (Hf e He).
    apply aligned_cases in Hn. apply frontierOk_cases in Hf. revert Hshort. consts.
    destruct Hn as [-> | [-> | [-> | ->]]]; destruct Hf as [-> | [-> | [-> | ->]]];
      eval_mods; intros Hshort; try (exfalso; lia); vm_compute; done. }
  destruct Htail as (Htail & Hlead). rewrite Hlead in Hst.
  rewrite decide_False in Hst by (consts; lia). destruct Hst as (Hfr & Hstd).
  rewrite Htail in Hout.
  assert (Hdr : diffLastWriteNextOutput (cb_ring r) = 1602).
  { destruct (diff_cases (cb_ring r) e Hinv' Hfr) as (-> & _). done. }
  split; [exact Hout|]. split; [done|]. split; [by rewrite Hfr, He|].
  split; [by rewrite Hdr|].
  unfold needsJitterBuffer. rewrite Hfr, Hdr. reflexivity.
Qed.

Lemma short_lead_is_overtaken_witness :
  reachable ringResynced ∧ is_Some (endOfLastWrite ringResynced) ∧
  diffLastWriteNextOutput ringResynced < BUFFER_LENGTH_SAMPLES ∧
  ∃ r, audioCallback None ringResynced = Some r ∧
       nextOutput (cb_ring r) = 1024 ∧ endOfLastWrite (cb_ring r) = Some 578.
Proof.
  split; [apply reachable_ringResynced|]. split; [eexists; reflexivity|].
  split; [vm_compute; reflexivity|].
  destruct (short_lead_is_overtaken ringResynced None reachable_ringResynced)
    as (r & Hcb & _ & _ & Hfr & _); [eexists; reflexivity | vm_compute; reflexivity |].
  exists r. split; [exact Hcb|]. split; [|exact Hfr].
  vm_compute in Hcb. injection Hcb as <-. reflexivity.
Defined.

(** ** Whole frames through the ring *)

Lemma samplesAt_app (l : list Z) d n m :
  0 ≤ d → 0 ≤ n → 0 ≤ m →
  samplesAt l d (n + m) = samplesAt l d n ++ samplesAt l (d + n) m.
Proof.
  intros. unfold samplesAt.
  rewrite !Z2Nat.inj_add by lia. rewrite <- take_take_drop, drop_drop. reflexivity.
Qed.

Lemma samplesAt_take (l : list Z) n m :
  0 ≤ n ≤ m → samplesAt l 0 n = take (Z.to_nat n) (samplesAt l 0 m).
Proof.
  intros. unfold samplesAt. rewrite take_take. f_equal. lia.
Qed.

(** A callback that finds a whole frame before the frontier, or the frontier
    behind the cursor in the store. *)
Lemma audioCallback_full b n e inputLeft :
  Z.of_nat (length b) = RING_BUFFER_SIZE_SAMPLES → aligned n →
  ¬ (e > n ∧ e - n < BUFFER_LENGTH_SAMPLES) →
  audioCallback inputLeft (mkRing b n (Some e))
  = let n' := if decide (n + 512 = 2048) then 0 else n + 512 in
    let starved := bool_decide ((e - n') `mod` 2048 < 512) in
    Some (mkResult (mkRing b n' (if starved then None else Some e))
            (samplesAt b n 512) (samplesAt b n 512) inputLeft
            (if starved then ["Starved"%string] else [])).
Proof.
  intros Hb Hn Hfull. unfold audioCallback. cbn [endOfLastWrite buffer nextOutput].
  unfold silentTail. cbn [nextOutput]. rewrite decide_False by lia.
  apply aligned_cases in Hn. revert Hb Hfull. consts. intros Hb Hfull.
  rewrite memcpy_Some by (unfold silence; rewrite ?length_replicate; consts; lia).
  cbn [mbind option_bind]. change (512 - 0) with 512.
  assert (Hout : list_inserts (Z.to_nat 0) (samplesAt b n 512) silence = samplesAt b n 512).
  { rewrite <- (app_nil_r silence). rewrite list_inserts_0_r.
    - apply app_nil_r.
    - rewrite length_samplesAt by lia. reflexivity. }
  rewrite Hout.
  unfold diffLastWriteNextOutput, advanceNextOutput, set_nextOutput, capacity.
  cbn [endOfLastWrite buffer nextOutput]. rewrite Hb. consts. change (0 + 2048) with 2048.
  cbn zeta. case_bool_decide; [by rewrite decide_True|by rewrite decide_False].
Qed.

(** A packet that fits between the frontier and the store end while the
    buffer is not nearly full. *)
Lemma receivePacket_append b n e receivedData :
  Z.of_nat (length b) = RING_BUFFER_SIZE_SAMPLES →
  Z.of_nat (length receivedData) = PACKET_LENGTH_SAMPLES →
  0 ≤ e → e + PACKET_LENGTH_SAMPLES ≤ RING_BUFFER_SIZE_SAMPLES →
  (e - n) `mod` RING_BUFFER_SIZE_SAMPLES ≤ RING_BUFFER_SIZE_SAMPLES - PACKET_LENGTH_SAMPLES →
  ∃ b', receivePacket (mkRing b n (Some e)) receivedData
          = Some (mkRing b' n (Some (e + PACKET_LENGTH_SAMPLES))) ∧
        length b' = length b ∧
        samplesAt b' e PACKET_LENGTH_SAMPLES = receivedData ∧
        ∀ d m, 0 ≤ d → 0 ≤ m → d + m ≤ e ∨ e + PACKET_LENGTH_SAMPLES ≤ d →
               samplesAt b' d m = samplesAt b d m.
Proof.
  intros Hb Hlen He Hfit Hdiff.
  assert (Hneeds : needsJitterBuffer (mkRing b n (Some e)) = false).
  { unfold needsJitterBuffer, diffLastWriteNextOutput, capacity. cbn.
    rewrite Hb. apply bool_decide_eq_false. lia. }
  unfold receivePacket. rewrite Hneeds. cbn [endOfLastWrite].
  unfold bufferOverlap, capacity. cbn [buffer]. rewrite Hb.
  rewrite decide_True by lia.
  destruct (appendPacket_spec (mkRing b n (Some e)) receivedData e)
    as (b' & -> & ? & ? & ?); [done|done|unfold capacity; cbn; lia|done|].
  eauto.
Qed.

(** A packet that needs a cushion. *)
Lemma receivePacket_cushion rb receivedData :
  capacity rb = RING_BUFFER_SIZE_SAMPLES →
  Z.of_nat (length receivedData) = PACKET_LENGTH_SAMPLES →
  needsJitterBuffer rb = true →
  ∃ b', receivePacket rb receivedData = Some (mkRing b' (nextOutput rb) (Some 578)) ∧
        length b' = length (buffer rb) ∧
        samplesAt b' 0 66 = replicate 66 0 ∧
        samplesAt b' 66 512 = receivedData ∧
        ∀ d n, 578 ≤ d → 0 ≤ n → samplesAt b' d n = samplesAt (buffer rb) d n.
Proof.
  intros Hcap Hlen Hneeds. unfold receivePacket. rewrite Hneeds.
  destruct (injectJitterBuffer_spec rb receivedData Hcap Hlen)
    as (b' & -> & Hl & Hz & Hp & Hrest).
  exists b'. split; [reflexivity|]. split; [exact Hl|]. split; [exact Hz|].
  split; [exact Hp|exact Hrest].
Qed.

(** The store after a cushion and three packets. *)
Lemma three_packets_store contents p1 p2 p3 :
  Z.of_nat (length contents) = RING_BUFFER_SIZE_SAMPLES →
  Z.of_nat (length p1) = PACKET_LENGTH_SAMPLES →
  Z.of_nat (length p2) = PACKET_LENGTH_SAMPLES →
  Z.of_nat (length p3) = PACKET_LENGTH_SAMPLES →
  ∃ b3, receiveAudioViaUDP [p1; p2; p3] (AudioRingBuffer_new contents)
          = Some (mkRing b3 0 (Some 1602)) ∧
        Z.of_nat (length b3) = RING_BUFFER_SIZE_SAMPLES ∧
        samplesAt b3 0 1602 = replicate 66 0 ++ p1 ++ p2 ++ p3.
Proof.
  intros Hc H1 H2 H3. cbn [receiveAudioViaUDP].
  destruct (receivePacket_cushion (AudioRingBuffer_new contents) p1 Hc H1 eq_refl)
    as (b1 & -> & Hl1 & Hz1 & Hp1 & _).
  cbn [mbind option_bind nextOutput AudioRingBuffer_new buffer] in *.
  destruct (receivePacket_append b1 0 578 p2) as (b2 & -> & Hl2 & Hp2 & Hk2);
    [consts; rewrite ?Hl1; done..|].
  cbn [mbind option_bind]. revert Hp2 Hk2. consts. change (578 + 512) with 1090.
  intros Hp2 Hk2.
  destruct (receivePacket_append b2 0 1090 p3) as (b3 & -> & Hl3 & Hp3 & Hk3);
    [consts; rewrite ?Hl2, ?Hl1; done..|].
  cbn [mbind option_bind]. revert Hp3 Hk3. consts. change (1090 + 512) with 1602.
  intros Hp3 Hk3.
  exists b3. split; [reflexivity|]. split; [by rewrite Hl3, Hl2, Hl1|].
  change 1602 with (66 + (512 + (512 + 512))).
  rewrite !samplesAt_app by lia.
  change (0 + 66) with 66. change (66 + 512) with 578. change (578 + 512) with 1090.
  rewrite Hp3.
  rewrite (Hk3 578 512), Hp2 by lia.
  rewrite (Hk3 66 512), (Hk2 66 512), Hp1 by lia.
  rewrite (Hk3 0 66), (Hk2 0 66), Hz1 by lia.
  reflexivity.
Qed.

(** X6: the relay delivers in order, one cushion late.  Three packets
    arrive into a fresh ring and three callbacks follow: together they play
    the 66 zero samples of the cushion and then the packets' samples in the
    order they came, cut after three frames; the third callback prints
    "Starved" and unsets the frontier, with the last 66 samples of the third
    packet still unplayed. *)
Theorem relay_plays_cushion_then_packets contents p1 p2 p3 :
  Z.of_nat (length contents) = RING_BUFFER_SIZE_SAMPLES →
  Z.of_nat (length p1) = PACKET_LENGTH_SAMPLES →
  Z.of_nat (length p2) = PACKET_LENGTH_SAMPLES →
  Z.of_nat (length p3) = PACKET_LENGTH_SAMPLES →
  ∃ rb3 rs rb',
    receiveAudioViaUDP [p1; p2; p3] (AudioRingBuffer_new contents) = Some rb3 ∧
    audioCallbacks [None; None; None] rb3 = Some (rs, rb') ∧
    concat (outputLeft <$> rs)
      = take (3 * Z.to_nat BUFFER_LENGTH_SAMPLES)
          (replicate (Z.to_nat jitterBufferSamples) 0 ++ p1 ++ p2 ++ p3) ∧
    outputRight <$> rs = outputLeft <$> rs ∧
    cb_stdout <$> rs = [[]; []; ["Starved"%string]] ∧
    endOfLastWrite rb' = None.
Proof.
  intros Hc H1 H2 H3.
  destruct (three_packets_store contents p1 p2 p3 Hc H1 H2 H3) as (b3 & Hrecv & Hl3 & Hstore).
  exists (mkRing b3 0 (Some 1602)). do 2 eexists. split; [exact Hrecv|]. split.
  { cbn [audioCallbacks].
    rewrite audioCallback_full; [|done|by apply aligned_cases; auto|consts; lia].
    cbn zeta. rewrite decide_False by lia.
    change (bool_decide ((1602 - (0 + 512)) `mod` 2048 < 512)) with false.
    cbn [mbind option_bind cb_ring]. change (0 + 512) with 512.
    rewrite audioCallback_full; [|done|by apply aligned_cases; auto|consts; lia].
    cbn zeta. rewrite decide_False by lia.
    change (bool_decide ((1602 - (512 + 512)) `mod` 2048 < 512)) with false.
    cbn [mbind option_bind cb_ring]. change (512 + 512) with 1024.
    rewrite audioCallback_full; [|done|by apply aligned_cases; auto|consts; lia].
    cbn zeta. rewrite decide_False by lia.
    change (bool_decide ((1602 - (1024 + 512)) `mod` 2048 < 512)) with true.
    cbn [mbind option_bind cb_ring]. reflexivity. }
  cbn [fmap list_fmap outputLeft outputRight cb_stdout concat endOfLastWrite].
  split; [|done]. rewrite app_nil_r.
  transitivity (samplesAt b3 0 (512 + (512 + 512))).
  - rewrite !samplesAt_app by lia. reflexivity.
  - rewrite (samplesAt_take b3 (512 + (512 + 512)) 1602) by lia.
    rewrite Hstore. reflexivity.
Qed.

Lemma relay_plays_cushion_then_packets_witness :
  Z.of_nat (length staleStore) = RING_BUFFER_SIZE_SAMPLES ∧
  Z.of_nat (length (flatPacket 1)) = PACKET_LENGTH_SAMPLES ∧
  ∃ rs rb',
    audioCallbacks [None; None; None] ringFull = Some (rs, rb') ∧
    concat (outputLeft <$> rs)
      = replicate 66 0 ++ replicate 512 1 ++ replicate 512 2 ++ replicate 446 3.
Proof.
  split; [reflexivity|]. split; [reflexivity|].
  destruct (relay_plays_cushion_then_packets staleStore
              (flatPacket 1) (flatPacket 2) (flatPacket 3))
    as (rb3 & rs & rb' & Hrecv & Hcbs & Hout & _); [reflexivity..|].
  exists rs, rb'.
  vm_compute in Hrecv. injection Hrecv as <-.
  split; [exact Hcbs|]. rewrite Hout. vm_compute. reflexivity.
Defined.

Lemma needsJitterBuffer_eval b n e :
  Z.of_nat (length b) = RING_BUFFER_SIZE_SAMPLES →
  needsJitterBuffer (mkRing b n (Some e)) = bool_decide ((e - n) `mod` 2048 > 1536) ∧
  diffLastWriteNextOutput (mkRing b n (Some e)) = (e - n) `mod` 2048.
Proof.
  intros Hb. unfold needsJitterBuffer, diffLastWriteNextOutput, capacity.
  cbn [endOfLastWrite nextOutput buffer]. rewrite Hb. done.
Qed.

(** One round from a lead of two frames and a cushion: the callback plays a
    whole frame and does not starve, the packet is written without a cushion,
    and the lead is two frames and a cushion again. *)
Lemma relay_round rb receivedData :
  ringInv rb → is_Some (endOfLastWrite rb) → diffLastWriteNextOutput rb = 1090 →
  Z.of_nat (length receivedData) = PACKET_LENGTH_SAMPLES →
  ∃ r rb1, audioCallback None rb = Some r ∧
           cb_stdout r = [] ∧ is_Some (endOfLastWrite (cb_ring r)) ∧
           outputLeft r = samplesAt (buffer rb) (nextOutput rb) BUFFER_LENGTH_SAMPLES ∧
           needsJitterBuffer (cb_ring r) = false ∧
           receivePacket (cb_ring r) receivedData = Some rb1 ∧
           ringInv rb1 ∧ is_Some (endOfLastWrite rb1) ∧
           diffLastWriteNextOutput rb1 = 1090.
Proof.
  intros Hinv [e He] Hd Hlen. pose proof Hinv as (Hcap & Hn & Hf).
  specialize (Hf e He). destruct rb as [b n f].
  cbn [endOfLastWrite nextOutput buffer] in *. subst f.
  unfold capacity in Hcap. cbn [buffer] in Hcap.
  destruct (needsJitterBuffer_eval b n e Hcap) as (_ & Hde). rewrite Hde in Hd.
  rewrite audioCallback_full; [|done|done|].
  2:{ apply aligned_cases in Hn. apply frontierOk_cases in Hf. consts.
      destruct Hn as [-> | [-> | [-> | ->]]]; destruct Hf as [-> | [-> | [-> | ->]]];
        vm_compute in Hd; lia. }
  cbn zeta.
  assert (Hstep : ∃ n', (if decide (n + 512 = 2048) then 0 else n + 512) = n' ∧
                        aligned n' ∧ (e - n') `mod` 2048 = 578).
  { apply aligned_cases in Hn. apply frontierOk_cases in Hf. eexists. split; [reflexivity|].
    rewrite aligned_cases.
    destruct Hn as [-> | [-> | [-> | ->]]]; destruct Hf as [-> | [-> | [-> | ->]]];
      vm_compute in Hd; try discriminate; vm_compute; auto. }
  destruct Hstep as (n' & -> & Hn' & Hd'). rewrite Hd'.
  change (bool_decide (578 < 512)) with false. cbn iota.
  assert (Hinv1 : ringInv (mkRing b n' (Some e))).
  { split; [done|]. split; [done|]. by intros ? [= <-]. }
  destruct (needsJitterBuffer_eval b n' e Hcap) as (Hneeds & _).
  rewrite Hd' in Hneeds. change (bool_decide (578 > 1536)) with false in Hneeds.
  destruct (receivePacket_ringInv (mkRing b n' (Some e)) receivedData Hinv1 Hlen)
    as (rb1 & Hrecv & Hinv2 & Hnext).
  destruct (receivePacket_frontier (mkRing b n' (Some e)) receivedData Hinv1 Hlen)
    as (rb1' & Hrecv' & _ & Hlb & Hfr).
  rewrite Hrecv in Hrecv'. injection Hrecv' as <-. rewrite Hneeds in Hfr.
  cbn [endOfLastWrite nextOutput buffer] in Hfr, Hnext, Hlb.
  do 2 eexists. split; [reflexivity|]. cbn [cb_stdout cb_ring outputLeft endOfLastWrite].
  split; [done|]. split; [by eexists|]. split; [done|]. split; [done|].
  split; [exact Hrecv|]. split; [done|]. split; [by eexists|].
  unfold diffLastWriteNextOutput, capacity. rewrite Hfr, Hnext, Hlb, Hcap. consts.
  clear Hrecv Hinv2 Hinv1 Hfr Hneeds Hinv Hde.
  apply aligned_cases in Hn'. apply frontierOk_cases in Hf. revert Hd'.
  destruct Hn' as [-> | [-> | [-> | ->]]]; destruct Hf as [-> | [-> | [-> | ->]]];
    vm_compute; (discriminate || reflexivity).
Qed.

Lemma relayRounds_steady packets : ∀ rb,
  ringInv rb → is_Some (endOfLastWrite rb) → diffLastWriteNextOutput rb = 1090 →
  Forall (λ receivedData, Z.of_nat (length receivedData) = PACKET_LENGTH_SAMPLES) packets →
  ∃ rs rb', relayRounds packets rb = Some (rs, rb') ∧
            length rs = length packets ∧
            Forall (λ x, cb_stdout x.1 = [] ∧ is_Some (endOfLastWrite (cb_ring x.1)) ∧
                         x.2 = false) rs ∧
            ringInv rb' ∧ is_Some (endOfLastWrite rb') ∧
            diffLastWriteNextOutput rb' = 1090.
Proof.
  induction packets as [|receivedData rest IH]; intros rb Hinv Hset Hd Hall.
  - exists [], rb. split; [done|]. split; [done|]. split; [constructor|]. done.
  - apply Forall_cons in Hall as (Hlen & Hall).
    destruct (relay_round rb receivedData Hinv Hset Hd Hlen)
      as (r & rb1 & Hcb & Hstd & Hfr & _ & Hneeds & Hrecv & Hinv1 & Hset1 & Hd1).
    destruct (IH rb1 Hinv1 Hset1 Hd1 Hall) as (rs & rb' & Hrest & Hlrs & Hrs & Hfinal).
    exists ((r, false) :: rs), rb'. cbn [relayRounds].
    rewrite Hcb. cbn [mbind option_bind]. rewrite Hrecv. cbn [mbind option_bind].
    rewrite Hrest. cbn [mbind option_bind]. rewrite Hneeds.
    split; [reflexivity|]. split; [cbn; by rewrite Hlrs|]. split; [|done].
    constructor; [by repeat split|done].
Qed.

(** X7: packets that keep pace are never starved and never resynchronized.
    In a running session whose frontier is two frames and a cushion (1090
    samples) ahead of the cursor, any number of rounds "callback, then
    packet" run to their end; no callback prints "Starved" or unsets the
    frontier, no packet needs a cushion, and the lead is 1090 samples again
    after every round. *)
Theorem steady_relay_never_starves rb packets :
  reachable rb → is_Some (endOfLastWrite rb) →
  diffLastWriteNextOutput rb = jitterBufferSamples + 2 * BUFFER_LENGTH_SAMPLES →
  Forall (λ receivedData, Z.of_nat (length receivedData) = PACKET_LENGTH_SAMPLES) packets →
  ∃ rs rb', relayRounds packets rb = Some (rs, rb') ∧
            length rs = length packets ∧
            Forall (λ x, cb_stdout x.1 = [] ∧ is_Some (endOfLastWrite (cb_ring x.1)) ∧
                         x.2 = false) rs ∧
            is_Some (endOfLastWrite rb') ∧
            diffLastWriteNextOutput rb' = jitterBufferSamples + 2 * BUFFER_LENGTH_SAMPLES.
Proof.
  intros Hr Hset Hd Hall.
  destruct (relayRounds_steady packets rb (reachable_ringInv rb Hr) Hset Hd Hall)
    as (rs & rb' & Hrun & Hlen & Hrs & _ & Hset' & Hd').
  exists rs, rb'. by repeat split.
Qed.

Lemma steady_relay_never_starves_witness :
  reachable ringBeforeWrap ∧ is_Some (endOfLastWrite ringBeforeWrap) ∧
  diffLastWriteNextOutput ringBeforeWrap = jitterBufferSamples + 2 * BUFFER_LENGTH_SAMPLES ∧
  ∃ rs rb', relayRounds [flatPacket 4; flatPacket 5; flatPacket 6; flatPacket 7; flatPacket 8]
              ringBeforeWrap = Some (rs, rb') ∧
            nextOutput rb' = 1024 ∧ endOfLastWrite rb' = Some 66.
Proof.
  split; [apply reachable_ringBeforeWrap|]. split; [eexists; reflexivity|].
  split; [reflexivity|].
  destruct (steady_relay_never_starves ringBeforeWrap
              [flatPacket 4; flatPacket 5; flatPacket 6; flatPacket 7; flatPacket 8]
              reachable_ringBeforeWrap)
    as (rs & rb' & Hrun & _); [eexists; reflexivity | reflexivity | repeat constructor|].
  exists rs, rb'. split; [exact Hrun|].
  vm_compute in Hrun. injection Hrun as <- <-. split; reflexivity.
Defined.

Lemma samplesAt_prefix (l : list Z) d n m :
  0 ≤ n ≤ m → samplesAt l d n = take (Z.to_nat n) (samplesAt l d m).
Proof. intros. unfold samplesAt. rewrite take_take. f_equal. lia. Qed.

(** A callback that finds the frontier one cushion ahead of the cursor. *)
Lemma audioCallback_short b n inputLeft :
  Z.of_nat (length b) = RING_BUFFER_SIZE_SAMPLES → aligned n →
  audioCallback inputLeft (mkRing b n (Some (n + 66)))
  = Some (mkResult (mkRing b (if decide (n + 512 = 2048) then 0 else n + 512)
                      (Some (n + 66)))
            (samplesAt b n 66 ++ replicate 446 0) (samplesAt b n 66 ++ replicate 446 0)
            inputLeft []).
Proof.
  intros Hb Hn. unfold audioCallback. cbn [endOfLastWrite buffer nextOutput].
  unfold silentTail. cbn [nextOutput]. consts. rewrite decide_True by lia.
  apply aligned_cases in Hn.
  rewrite memcpy_Some by (unfold silence; rewrite ?length_replicate; consts; lia).
  cbn [mbind option_bind].
  replace (512 - (512 - (n + 66 - n))) with 66 by lia.
  assert (Hout : list_inserts (Z.to_nat 0) (samplesAt b n 66) silence
                 = samplesAt b n 66 ++ replicate 446 0).
  { change silence with (replicate 66 0 ++ replicate 446 0).
    apply list_inserts_0_r. rewrite length_samplesAt by lia. reflexivity. }
  rewrite Hout.
  unfold diffLastWriteNextOutput, advanceNextOutput, set_nextOutput, capacity.
  cbn [endOfLastWrite buffer nextOutput]. rewrite Hb. consts. change (0 + 2048) with 2048.
  rewrite decide_False; [reflexivity|].
  destruct Hn as [-> | [-> | [-> | ->]]]; vm_compute; discriminate.
Qed.

(** X8: a packet that comes one at a time is cut and the next is played
    from its tail.  One packet arrives into a fresh ring and a callback
    follows: it plays the cushion and the first 446 samples of the packet and
    starves.  The next packet is written with a new cushion at the store
    start, over the 66 samples of the first packet that were not played; the
    callback after it, reading on from where the cursor stands, plays the
    last 66 samples of the second packet and 446 samples of silence, and
    prints nothing. *)
Theorem packet_after_starvation_is_played_from_its_tail contents p1 p2 :
  Z.of_nat (length contents) = RING_BUFFER_SIZE_SAMPLES →
  Z.of_nat (length p1) = PACKET_LENGTH_SAMPLES →
  Z.of_nat (length p2) = PACKET_LENGTH_SAMPLES →
  ∃ rb1 r1 rb2 r2,
    receivePacket (AudioRingBuffer_new contents) p1 = Some rb1 ∧
    audioCallback None rb1 = Some r1 ∧
    outputLeft r1 = replicate (Z.to_nat jitterBufferSamples) 0 ++ take 446 p1 ∧
    cb_stdout r1 = ["Starved"%string] ∧
    receivePacket (cb_ring r1) p2 = Some rb2 ∧
    audioCallback None rb2 = Some r2 ∧
    outputLeft r2 = drop 446 p2 ++ replicate 446 0 ∧
    cb_stdout r2 = [] ∧
    is_Some (endOfLastWrite (cb_ring r2)).
Proof.
  intros Hc H1 H2.
  destruct (receivePacket_cushion (AudioRingBuffer_new contents) p1 Hc H1 eq_refl)
    as (b1 & Hr1 & Hl1 & Hz1 & Hp1 & _).
  cbn [nextOutput AudioRingBuffer_new buffer] in *.
  assert (Hb1 : Z.of_nat (length b1) = RING_BUFFER_SIZE_SAMPLES) by by rewrite Hl1.
  pose proof (audioCallback_full b1 0 578 None Hb1) as Hcb1.
  cbn zeta in Hcb1. rewrite decide_False in Hcb1 by lia.
  change (bool_decide ((578 - (0 + 512)) `mod` 2048 < 512)) with true in Hcb1.
  cbn iota in Hcb1. change (0 + 512) with 512 in Hcb1.
  specialize (Hcb1 ltac:(by apply aligned_cases; auto) ltac:(consts; lia)).
  destruct (receivePacket_cushion (mkRing b1 512 None) p2 Hb1 H2 eq_refl)
    as (b2 & Hr2 & Hl2 & Hz2 & Hp2 & _).
  cbn [nextOutput buffer] in *.
  assert (Hb2 : Z.of_nat (length b2) = RING_BUFFER_SIZE_SAMPLES) by by rewrite Hl2.
  pose proof (audioCallback_short b2 512 None Hb2 ltac:(by apply aligned_cases; auto)) as Hcb2.
  change (512 + 66) with 578 in Hcb2.
  do 4 eexists. split; [exact Hr1|]. split; [exact Hcb1|].
  cbn [outputLeft cb_stdout cb_ring].
  split; [|split; [done|split; [exact Hr2|split; [exact Hcb2|]]]].
  - change 512 with (66 + 446). rewrite samplesAt_app by lia. rewrite Hz1.
    change (0 + 66) with 66.
    rewrite (samplesAt_prefix b1 66 446 512) by lia. rewrite Hp1. reflexivity.
  - cbn [outputLeft cb_stdout cb_ring endOfLastWrite].
    split; [|split; [done|by eexists]]. f_equal.
    rewrite <- Hp2. change 512 with (446 + 66) at 2.
    rewrite samplesAt_app by lia. change (66 + 446) with 512.
    rewrite drop_app_length'; [reflexivity|].
    consts. rewrite length_samplesAt; lia.
Qed.

Lemma packet_after_starvation_is_played_from_its_tail_witness :
  Z.of_nat (length staleStore) = RING_BUFFER_SIZE_SAMPLES ∧
  Z.of_nat (length rampPacket) = PACKET_LENGTH_SAMPLES ∧
  ∃ r2, audioCallback None ringResynced = Some r2 ∧
        outputLeft r2 = replicate 66 2 ++ replicate 446 0.
Proof.
  split; [reflexivity|]. split; [reflexivity|].
  destruct (packet_after_starvation_is_played_from_its_tail staleStore
              (flatPacket 1) (flatPacket 2))
    as (rb1 & r1 & rb2 & r2 & Hr1 & Hcb1 & _ & _ & Hr2 & Hcb2 & Hout & _);
    [reflexivity..|].
  exists r2.
  vm_compute in Hr1. injection Hr1 as <-.
  vm_compute in Hcb1. injection Hcb1 as <-.
  vm_compute in Hr2. injection Hr2 as <-.
  split; [exact Hcb2|]. rewrite Hout. reflexivity.
Defined.

(** X9: an appended packet disturbs nothing else.  In a running session,
    a packet that needs no cushion and fits before the store end is written
    at the frontier, which moves on by one packet; the read cursor and every
    sample outside the 512 written ones are as they were, so what was
    received before and not yet played is still there. *)
Theorem append_keeps_other_samples rb e receivedData :
  reachable rb → endOfLastWrite rb = Some e →
  Z.of_nat (length receivedData) = PACKET_LENGTH_SAMPLES →
  needsJitterBuffer rb = false →
  bufferOverlap rb e PACKET_LENGTH_SAMPLES = 0 →
  ∃ rb', receivePacket rb receivedData = Some rb' ∧
         endOfLastWrite rb' = Some (e + PACKET_LENGTH_SAMPLES) ∧
         nextOutput rb' = nextOutput rb ∧
         samplesAt (buffer rb') e PACKET_LENGTH_SAMPLES = receivedData ∧
         ∀ d n, 0 ≤ d → 0 ≤ n → d + n ≤ e ∨ e + PACKET_LENGTH_SAMPLES ≤ d →
                samplesAt (buffer rb') d n = samplesAt (buffer rb) d n.
Proof.
  intros Hr He Hlen Hneeds Hov.
  pose proof (reachable_ringInv rb Hr) as (Hcap & Hn & Hf). specialize (Hf e He).
  unfold receivePacket. rewrite Hneeds, He, Hov. rewrite decide_True by done.
  assert (0 ≤ e) by (apply frontierOk_cases in Hf; lia).
  assert (e + PACKET_LENGTH_SAMPLES ≤ capacity rb)
    by (unfold bufferOverlap in Hov; lia).
  destruct (appendPacket_spec rb receivedData e He) as (b' & -> & _ & Hp & Hk); [done..|].
  eexists. split; [reflexivity|]. cbn. by repeat split.
Qed.

Lemma append_keeps_other_samples_witness :
  reachable ringAfter1 ∧ endOfLastWrite ringAfter1 = Some 578 ∧
  Z.of_nat (length rampPacket) = PACKET_LENGTH_SAMPLES ∧
  needsJitterBuffer ringAfter1 = false ∧
  bufferOverlap ringAfter1 578 PACKET_LENGTH_SAMPLES = 0 ∧
  ∃ rb', receivePacket ringAfter1 rampPacket = Some rb' ∧
         samplesAt (buffer rb') 66 512 = flatPacket 1.
Proof.
  split; [apply reachable_ringAfter1|]. do 4 (split; [reflexivity|]).
  destruct (append_keeps_other_samples ringAfter1 578 rampPacket reachable_ringAfter1)
    as (rb' & Hrecv & _ & _ & _ & Hkeep); [reflexivity..|].
  exists rb'. split; [exact Hrecv|].
  rewrite Hkeep by (vm_compute; intuition discriminate). vm_compute. reflexivity.
Defined.

(** * Further properties of the positioned-sources branch *)

(** Pulling a frame: a circular read of one frame from the play position. *)
Lemma pullFrame_spec queue source :
  sourceOk source → Z.of_nat (length queue) = BUFFER_LENGTH_SAMPLES →
  ∃ frame source',
    pullFrame queue source = Some (frame, source') ∧
    length frame = length queue ∧
    (∀ j : nat, (j < Z.to_nat BUFFER_LENGTH_SAMPLES)%nat →
       frame !! j
       = sourceData source
           !! Z.to_nat ((samplePointer source + Z.of_nat j) `mod` lengthInSamples source)) ∧
    sourceData source' = sourceData source ∧
    lengthInSamples source' = lengthInSamples source ∧
    0 < samplePointer source' ≤ lengthInSamples source ∧
    samplePointer source' `mod` lengthInSamples source
    = (samplePointer source + BUFFER_LENGTH_SAMPLES) `mod` lengthInSamples source.
Proof.
  intros (Hlen & Hbig & Hsp) Hq. unfold pullFrame.
  destruct source as [data sp len]. cbn [sourceData samplePointer lengthInSamples] in *.
  revert Hbig Hq. consts. intros Hbig Hq.
  case_decide as Hwrap.
  - rewrite memcpy_Some by lia. cbn [mbind option_bind].
    do 2 eexists. split; [reflexivity|]. cbn [sourceData samplePointer lengthInSamples].
    split; [by rewrite length_inserts|]. split; [|split; [done|split; [done|split; [lia|done]]]].
    intros j Hj. rewrite list_lookup_inserts by (rewrite ?length_samplesAt; lia).
    rewrite lookup_samplesAt by lia. rewrite Z.mod_small by lia. f_equal. lia.
  - rewrite memcpy_Some by lia. cbn [mbind option_bind].
    rewrite memcpy_Some by (rewrite ?length_inserts; lia). cbn [mbind option_bind].
    do 2 eexists. split; [reflexivity|]. cbn [sourceData samplePointer lengthInSamples].
    split; [by rewrite !length_inserts|].
    split; [|split; [done|split; [done|split; [lia|]]]].
    + intros j Hj.
      assert (Hmod : (sp + Z.of_nat j) `mod` len
                     = if decide (sp + Z.of_nat j < len) then sp + Z.of_nat j
                       else sp + Z.of_nat j - len).
      { case_decide; [by rewrite Z.mod_small by lia|].
        symmetry. apply (Z.mod_unique_pos _ _ 1); lia. }
      rewrite Hmod. case_decide.
      * rewrite list_lookup_inserts_lt by lia.
        rewrite list_lookup_inserts by (rewrite ?length_samplesAt; lia).
        rewrite lookup_samplesAt by lia. f_equal. lia.
      * rewrite list_lookup_inserts
          by (rewrite ?length_inserts, ?length_samplesAt; lia).
        rewrite lookup_samplesAt by lia. f_equal. lia.
    + replace (sp + 512) with (512 - (len - sp) + 1 * len) by lia.
      by rewrite Z.mod_add by lia.
Qed.

(** X10: a source is read as a loop.  For a loaded source, pulling a
    frame returns; sample [j] of the frame is the source sample [j] places
    after the play position, counted round the source; the new play position
    is inside (0, length] and is the old one plus one frame, modulo the
    source length; the source is still well formed, so the next callback can
    pull again. *)
Theorem pullFrame_reads_round_the_source queue source :
  sourceOk source → Z.of_nat (length queue) = BUFFER_LENGTH_SAMPLES →
  ∃ frame source',
    pullFrame queue source = Some (frame, source') ∧
    Z.of_nat (length frame) = BUFFER_LENGTH_SAMPLES ∧
    (∀ j : nat, (j < Z.to_nat BUFFER_LENGTH_SAMPLES)%nat →
       is_Some (frame !! j) ∧
       frame !! j
       = sourceData source
           !! Z.to_nat ((samplePointer source + Z.of_nat j) `mod` lengthInSamples source)) ∧
    0 < samplePointer source' ≤ lengthInSamples source ∧
    samplePointer source' `mod` lengthInSamples source
    = (samplePointer source + BUFFER_LENGTH_SAMPLES) `mod` lengthInSamples source ∧
    sourceOk source'.
Proof.
  intros Hok Hq.
  destruct (pullFrame_spec queue source Hok Hq)
    as (frame & source' & Hpull & Hlf & Hframe & Hdata & Hlen & Hsp & Hmod).
  exists frame, source'. split; [done|]. split; [by rewrite Hlf|].
  split; [|split; [done|split; [done|]]].
  - intros j Hj. split; [|by apply Hframe].
    apply lookup_lt_is_Some. revert Hq Hj. consts. lia.
  - destruct Hok as (Hl & Hbig & _). unfold sourceOk. rewrite Hdata, Hlen.
    split; [done|]. split; [done|]. lia.
Qed.

Lemma pullFrame_reads_round_the_source_witness :
  sourceOk (mkSource (seqZ 0 600) 500 600) ∧
  Z.of_nat (length silence) = BUFFER_LENGTH_SAMPLES ∧
  ∃ frame source',
    pullFrame silence (mkSource (seqZ 0 600) 500 600) = Some (frame, source') ∧
    frame = seqZ 500 100 ++ seqZ 0 412 ∧ samplePointer source' = 412.
Proof.
  split; [repeat split; vm_compute; discriminate|]. split; [reflexivity|].
  destruct (pullFrame_reads_round_the_source silence (mkSource (seqZ 0 600) 500 600))
    as (frame & source' & Hpull & _); [repeat split; vm_compute; discriminate|reflexivity|].
  exists frame, source'. split; [exact Hpull|].
  vm_compute in Hpull. injection Hpull as <- <-. split; reflexivity.
Defined.

Section MixSafety.
Variable scaleByDistance : Z → Z.
Variable addPhaseScaled : Z → Z → Z.
Variable numSamplesDelay : Z.
Variable source : AudioSource.
Variable startPointer : Z.
Hypothesis delay_range : 0 ≤ numSamplesDelay ≤ lengthInSamples source.
Hypothesis data_length : Z.of_nat (length (sourceData source)) = lengthInSamples source.
Hypothesis start_range : 0 ≤ startPointer ≤ lengthInSamples source.

Let mix1 := mixSample scaleByDistance addPhaseScaled numSamplesDelay source startPointer.
Let mixN := mixSamples scaleByDistance addPhaseScaled numSamplesDelay source startPointer.

(** The index the loop reads in the source for an output index before the
    delay (lines 174-178). *)
Let historyIndex (i : nat) : Z :=
  let sampleIndex := startPointer - numSamplesDelay + Z.of_nat i in
  if decide (sampleIndex < 0) then sampleIndex + lengthInSamples source else sampleIndex.

Lemma historyIndex_range i :
  Z.of_nat i < numSamplesDelay →
  0 ≤ historyIndex i < lengthInSamples source ∧
  historyIndex i
  = (startPointer - numSamplesDelay + Z.of_nat i) `mod` lengthInSamples source.
Proof.
  intros Hi. unfold historyIndex. cbn zeta. case_decide.
  - split; [lia|]. apply (Z.mod_unique_pos _ _ (-1)); lia.
  - split; [lia|]. symmetry. apply Z.mod_small. lia.
Qed.

(** One step of the loop: it returns, and writes index [i] of each of the
    three buffers and nothing else. *)
Lemma mixSample_step i m :
  (i < length (samplesToQueue m))%nat → (i < length (leadingOutput m))%nat →
  (i < length (trailingOutput m))%nat →
  ∃ x l t v,
    samplesToQueue m !! i = Some x ∧ leadingOutput m !! i = Some l ∧
    trailingOutput m !! i = Some t ∧
    mix1 i m = Some (mkMix (<[i := scaleByDistance x]> (samplesToQueue m))
                       (<[i := wrap16 (l + scaleByDistance x)]> (leadingOutput m))
                       (<[i := v]> (trailingOutput m))) ∧
    (Z.of_nat i < numSamplesDelay →
     ∃ s, sourceData source !! Z.to_nat (historyIndex i) = Some s ∧
          v = addPhaseScaled t s).
Proof.
  intros Hq Hl Ht.
  destruct (lookup_lt_is_Some_2 _ _ Hq) as [x Hx].
  destruct (lookup_lt_is_Some_2 _ _ Hl) as [l Hlx].
  destruct (lookup_lt_is_Some_2 _ _ Ht) as [t Htx].
  exists x, l, t. unfold mix1, mixSample. rewrite Hx. cbn [mbind option_bind].
  rewrite list_lookup_insert_eq by done. cbn [mbind option_bind].
  rewrite Hlx, Htx. cbn [mbind option_bind].
  case_decide as Hdelay.
  - unfold sampleAt. rewrite decide_True by lia.
    assert (Hqd : is_Some (<[i:=scaleByDistance x]> (samplesToQueue m)
                             !! Z.to_nat (Z.of_nat i - numSamplesDelay))).
    { apply lookup_lt_is_Some_2. rewrite length_insert. lia. }
    destruct Hqd as [qd ->]. cbn [mbind option_bind].
    eexists. repeat split; try reflexivity. lia.
  - destruct (historyIndex_range i) as ((Hlo & Hhi) & _); [lia|].
    fold (historyIndex i). unfold sampleAt. rewrite decide_True by lia.
    assert (Hs : is_Some (sourceData source !! Z.to_nat (historyIndex i))).
    { apply lookup_lt_is_Some_2. lia. }
    destruct Hs as [s Hs]. rewrite Hs. cbn [mbind option_bind].
    eexists. repeat split; try reflexivity. intros _. by exists s.
Qed.

(** The loop over any indices inside the buffers returns and keeps the
    three lengths. *)
Lemma mixSamples_returns indices : ∀ m,
  Forall (λ i, i < length (samplesToQueue m) ∧ i < length (leadingOutput m) ∧
               i < length (trailingOutput m))%nat indices →
  ∃ m', mixN indices m = Some m' ∧
        length (samplesToQueue m') = length (samplesToQueue m) ∧
        length (leadingOutput m') = length (leadingOutput m) ∧
        length (trailingOutput m') = length (trailingOutput m).
Proof.
  induction indices as [|i rest IH]; intros m Hall.
  - exists m. by repeat split.
  - apply Forall_cons in Hall as ((Hq & Hl & Ht) & Hall).
    destruct (mixSample_step i m Hq Hl Ht) as (x & l & t & v & _ & _ & _ & Hstep & _).
    cbn [mixN mixSamples]. fold mix1. rewrite Hstep. cbn [mbind option_bind].
    destruct (IH (mkMix (<[i := scaleByDistance x]> (samplesToQueue m))
                    (<[i := wrap16 (l + scaleByDistance x)]> (leadingOutput m))
                    (<[i := v]> (trailingOutput m))))
      as (m' & Hrun & Hq' & Hl' & Ht').
    { cbn [samplesToQueue leadingOutput trailingOutput]. rewrite !length_insert. done. }
    exists m'. split; [exact Hrun|].
    cbn [samplesToQueue leadingOutput trailingOutput] in *.
    rewrite !length_insert in *. done.
Qed.

(** Once the loop is past an index, later steps leave the trailing output
    there alone: at the indices before the delay it holds the phase-scaled
    sample of the source's history. *)
Lemma mixSamples_trailing_head m0 k m :
  mixN (seq 0 k) m0 = Some m →
  (k ≤ length (samplesToQueue m0))%nat → (k ≤ length (leadingOutput m0))%nat →
  (k ≤ length (trailingOutput m0))%nat →
  length (samplesToQueue m) = length (samplesToQueue m0) ∧
  length (leadingOutput m) = length (leadingOutput m0) ∧
  length (trailingOutput m) = length (trailingOutput m0) ∧
  (∀ j, (k ≤ j)%nat → trailingOutput m !! j = trailingOutput m0 !! j) ∧
  (∀ j, (j < k)%nat → Z.of_nat j < numSamplesDelay →
        ∃ t s, trailingOutput m0 !! j = Some t ∧
               sourceData source !! Z.to_nat (historyIndex j) = Some s ∧
               trailingOutput m !! j = Some (addPhaseScaled t s)).
Proof.
  revert m. induction k as [|k IH]; intros m.
  - cbn. intros [= <-] _ _ _. repeat split; intros; (lia || done).
  - rewrite seq_S. unfold mixN. rewrite mixSamples_app. fold mixN. cbn [Nat.add].
    destruct (mixN (seq 0 k) m0) as [mk|] eqn:Hk; [|done]. cbn [mbind option_bind].
    intros Hrun Hq Hl Ht.
    destruct (IH mk eq_refl) as (Hlq & Hll & Hlt & Hrest & Hhead); [lia..|]. clear IH.
    destruct (mixSample_step k mk) as (x & l & t & v & _ & _ & Htk & Hstep & Hv); [lia..|].
    cbn [mixN mixSamples] in Hrun. fold mix1 in Hrun. rewrite Hstep in Hrun.
    cbn in Hrun. injection Hrun as <-.
    cbn [samplesToQueue leadingOutput trailingOutput]. rewrite !length_insert.
    split; [done|]. split; [done|]. split; [done|]. split.
    + intros j Hj. rewrite list_lookup_insert_ne by lia. apply Hrest. lia.
    + intros j Hj Hjd. destruct (decide (j = k)) as [->|Hne].
      * destruct (Hv Hjd) as (s & Hs & ->). exists t, s.
        rewrite <- Hrest by lia. split; [done|]. split; [done|].
        apply list_lookup_insert_eq. lia.
      * rewrite list_lookup_insert_ne by done. apply Hhead; [lia|done].
Qed.

End MixSafety.

(** One source's pass, in full: it returns, and says where every sample of
    the three buffers comes from. *)
Lemma mixSource_spec scaleByDistance addPhaseScaled numSamplesDelay angleToSourcePositive
    source queue outLeft outRight :
  sourceOk source → 0 ≤ numSamplesDelay ≤ lengthInSamples source →
  Z.of_nat (length queue) = BUFFER_LENGTH_SAMPLES →
  Z.of_nat (length outLeft) = BUFFER_LENGTH_SAMPLES →
  Z.of_nat (length outRight) = BUFFER_LENGTH_SAMPLES →
  ∃ frame source' m,
    pullFrame queue source = Some (frame, source') ∧
    mixSource scaleByDistance addPhaseScaled numSamplesDelay angleToSourcePositive
      source queue outLeft outRight
    = Some (source', samplesToQueue m,
            (if angleToSourcePositive then leadingOutput m else trailingOutput m),
            (if angleToSourcePositive then trailingOutput m else leadingOutput m)) ∧
    mixSamples scaleByDistance addPhaseScaled numSamplesDelay source' (samplePointer source)
      (seq 0 (Z.to_nat BUFFER_LENGTH_SAMPLES))
      (mkMix frame (if angleToSourcePositive then outLeft else outRight)
                   (if angleToSourcePositive then outRight else outLeft)) = Some m ∧
    sourceOk source' ∧
    sourceData source' = sourceData source ∧
    lengthInSamples source' = lengthInSamples source ∧
    Z.of_nat (length frame) = BUFFER_LENGTH_SAMPLES ∧
    Z.of_nat (length (samplesToQueue m)) = BUFFER_LENGTH_SAMPLES ∧
    Z.of_nat (length (leadingOutput m)) = BUFFER_LENGTH_SAMPLES ∧
    Z.of_nat (length (trailingOutput m)) = BUFFER_LENGTH_SAMPLES.
Proof.
  intros Hok Hd Hq Hl Hr.
  destruct (pullFrame_spec queue source Hok Hq)
    as (frame & source' & Hpull & Hlf & _ & Hdata & Hlen & Hsp & _).
  assert (Hok' : sourceOk source').
  { destruct Hok as (? & ? & ?). unfold sourceOk. rewrite Hdata, Hlen.
    split; [done|]. split; [done|]. lia. }
  set (lead := if angleToSourcePositive then outLeft else outRight).
  set (trail := if angleToSourcePositive then outRight else outLeft).
  assert (Hll : Z.of_nat (length lead) = BUFFER_LENGTH_SAMPLES)
    by (unfold lead; by destruct angleToSourcePositive).
  assert (Hlt : Z.of_nat (length trail) = BUFFER_LENGTH_SAMPLES)
    by (unfold trail; by destruct angleToSourcePositive).
  destruct (mixSamples_returns scaleByDistance addPhaseScaled numSamplesDelay source'
              (samplePointer source)) with
      (indices := seq 0 (Z.to_nat BUFFER_LENGTH_SAMPLES)) (m := mkMix frame lead trail)
    as (m & Hmix & Hmq & Hml & Hmt).
  { by rewrite Hlen. }
  { destruct Hok' as (? & _). done. }
  { destruct Hok as (_ & _ & ?). by rewrite Hlen. }
  { apply Forall_forall. intros i Hi. apply elem_of_seq in Hi.
    cbn [samplesToQueue leadingOutput trailingOutput]. lia. }
  cbn [samplesToQueue leadingOutput trailingOutput] in *.
  exists frame, source', m. split; [done|]. split.
  { unfold mixSource. rewrite Hpull. cbn [mbind option_bind].
    fold lead trail. rewrite Hmix. reflexivity. }
  split; [done|]. split; [done|]. split; [done|]. split; [done|].
  split; [by rewrite Hlf|]. split; [by rewrite Hmq, Hlf|].
  split; [by rewrite Hml|by rewrite Hmt].
Qed.

(** X11: a pass over a loaded source never faults.  With a delay between 0
    and the source length and one-frame buffers, mixing a source returns: no
    read leaves the source or the queue, no write leaves a channel; the
    source is still well formed and the buffers keep their size, so the pass
    can be repeated for the next source and the next callback. *)
Theorem positioned_source_pass_returns
    scaleByDistance addPhaseScaled numSamplesDelay angleToSourcePositive
    source queue outLeft outRight :
  sourceOk source → 0 ≤ numSamplesDelay ≤ lengthInSamples source →
  Z.of_nat (length queue) = BUFFER_LENGTH_SAMPLES →
  Z.of_nat (length outLeft) = BUFFER_LENGTH_SAMPLES →
  Z.of_nat (length outRight) = BUFFER_LENGTH_SAMPLES →
  ∃ source' queue' outLeft' outRight',
    mixSource scaleByDistance addPhaseScaled numSamplesDelay angleToSourcePositive
      source queue outLeft outRight = Some (source', queue', outLeft', outRight') ∧
    sourceOk source' ∧
    Z.of_nat (length queue') = BUFFER_LENGTH_SAMPLES ∧
    Z.of_nat (length outLeft') = BUFFER_LENGTH_SAMPLES ∧
    Z.of_nat (length outRight') = BUFFER_LENGTH_SAMPLES.
Proof.
  intros Hok Hd Hq Hl Hr.
  destruct (mixSource_spec scaleByDistance addPhaseScaled numSamplesDelay
              angleToSourcePositive source queue outLeft outRight Hok Hd Hq Hl Hr)
    as (frame & source' & m & _ & Hmix & _ & Hok' & _ & _ & _ & Hmq & Hml & Hmt).
  do 4 eexists. split; [exact Hmix|]. split; [done|]. split; [done|].
  by destruct angleToSourcePositive.
Qed.

Lemma positioned_source_pass_returns_witness :
  sourceOk toneSource ∧ 0 ≤ PHASE_DELAY_AT_90 ≤ lengthInSamples toneSource ∧
  Z.of_nat (length silence) = BUFFER_LENGTH_SAMPLES ∧
  ∃ source' queue' outLeft' outRight',
    mixSource (scaleExact 1 4) (addScaledExact 1 8) PHASE_DELAY_AT_90 false toneSource
      silence silence silence = Some (source', queue', outLeft', outRight') ∧
    samplePointer source' = 512.
Proof.
  split; [repeat split; vm_compute; discriminate|].
  split; [split; vm_compute; discriminate|]. split; [reflexivity|].
  destruct (positioned_source_pass_returns (scaleExact 1 4) (addScaledExact 1 8)
              PHASE_DELAY_AT_90 false toneSource silence silence silence)
    as (source' & queue' & outLeft' & outRight' & Hmix & _);
    [repeat split; vm_compute; discriminate | split; vm_compute; discriminate
    | reflexivity..|].
  exists source', queue', outLeft', outRight'. split; [exact Hmix|].
  vm_compute in Hmix. injection Hmix as <- _ _ _. reflexivity.
Defined.

(** X12: a source is added to what the channels hold.  After one source's
    pass, at every index of the frame the queue holds the frame sample
    scaled by the distance ratio, and the leading channel holds what it held
    before plus that scaled sample, converted to 16 bits. *)
Theorem leading_channel_accumulates
    scaleByDistance addPhaseScaled numSamplesDelay angleToSourcePositive
    source queue outLeft outRight (i : nat) :
  sourceOk source → 0 ≤ numSamplesDelay ≤ lengthInSamples source →
  Z.of_nat (length queue) = BUFFER_LENGTH_SAMPLES →
  Z.of_nat (length outLeft) = BUFFER_LENGTH_SAMPLES →
  Z.of_nat (length outRight) = BUFFER_LENGTH_SAMPLES →
  (i < Z.to_nat BUFFER_LENGTH_SAMPLES)%nat →
  ∃ frame source' queue' outLeft' outRight' x l,
    pullFrame queue source = Some (frame, source') ∧
    mixSource scaleByDistance addPhaseScaled numSamplesDelay angleToSourcePositive
      source queue outLeft outRight = Some (source', queue', outLeft', outRight') ∧
    frame !! i = Some x ∧
    (if angleToSourcePositive then outLeft else outRight) !! i = Some l ∧
    queue' !! i = Some (scaleByDistance x) ∧
    (if angleToSourcePositive then outLeft' else outRight') !! i
    = Some (wrap16 (l + scaleByDistance x)).
Proof.
  intros Hok Hd Hq Hl Hr Hi.
  destruct (mixSource_spec scaleByDistance addPhaseScaled numSamplesDelay
              angleToSourcePositive source queue outLeft outRight Hok Hd Hq Hl Hr)
    as (frame & source' & m & Hpull & Hmix & Hloop & _ & _ & _ & Hlf & _).
  apply mixSamples_prefix in Hloop as (_ & Hq1 & _ & Hl1 & _); [|lia].
  cbn [samplesToQueue leadingOutput trailingOutput] in Hq1, Hl1.
  specialize (Hq1 i Hi). specialize (Hl1 i Hi).
  destruct (lookup_lt_is_Some_2 frame i) as [x Hx]; [lia|].
  destruct (lookup_lt_is_Some_2 (if angleToSourcePositive then outLeft else outRight) i)
    as [l Hlx]; [destruct angleToSourcePositive; lia|].
  rewrite Hx in Hq1, Hl1. rewrite Hlx in Hl1. cbn in Hq1, Hl1.
  exists frame, source'. do 3 eexists. exists x, l.
  split; [done|]. split; [exact Hmix|]. split; [done|]. split; [done|]. split; [done|].
  by destruct angleToSourcePositive.
Qed.

Lemma leading_channel_accumulates_witness :
  sourceOk toneSource ∧ 0 ≤ PHASE_DELAY_AT_90 ≤ lengthInSamples toneSource ∧
  Z.of_nat (length silence) = BUFFER_LENGTH_SAMPLES ∧
  Z.of_nat (length (flatPacket 100)) = BUFFER_LENGTH_SAMPLES ∧
  (7 < Z.to_nat BUFFER_LENGTH_SAMPLES)%nat ∧
  ∃ source' queue' outLeft' outRight',
    mixSource (scaleExact 1 4) (addScaledExact 1 8) PHASE_DELAY_AT_90 true toneSource
      silence (flatPacket 100) silence = Some (source', queue', outLeft', outRight') ∧
    queue' !! 7%nat = Some 250 ∧ outLeft' !! 7%nat = Some 350.
Proof.
  split; [repeat split; vm_compute; discriminate|].
  split; [split; vm_compute; discriminate|]. split; [reflexivity|].
  split; [reflexivity|]. split; [vm_compute; lia|].
  destruct (leading_channel_accumulates (scaleExact 1 4) (addScaledExact 1 8)
              PHASE_DELAY_AT_90 true toneSource silence (flatPacket 100) silence 7)
    as (frame & source' & queue' & outLeft' & outRight' & x & l
        & Hpull & Hmix & Hx & Hl & Hq & Hlead);
    [repeat split; vm_compute; discriminate | split; vm_compute; discriminate
    | reflexivity | reflexivity | reflexivity | vm_compute; lia |].
  exists source', queue', outLeft', outRight'. split; [exact Hmix|].
  vm_compute in Hpull. injection Hpull as <- _.
  vm_compute in Hx. injection Hx as <-. vm_compute in Hl. injection Hl as <-.
  split; [exact Hq | exact Hlead].
Defined.

(** X13: before the delay has passed, the trailing channel is fed from the
    source's own past.  At an output index [i] below the delay, one source's
    pass adds to the trailing channel the source sample that lies
    [numSamplesDelay - i] places before the frame start, counted round the
    source, through the phase-scaled operation: the same sample the leading
    channel got [numSamplesDelay] places earlier in the stream. *)
Theorem trailing_head_reads_source_history
    scaleByDistance addPhaseScaled numSamplesDelay angleToSourcePositive
    source queue outLeft outRight (i : nat) :
  sourceOk source → 0 ≤ numSamplesDelay ≤ lengthInSamples source →
  Z.of_nat (length queue) = BUFFER_LENGTH_SAMPLES →
  Z.of_nat (length outLeft) = BUFFER_LENGTH_SAMPLES →
  Z.of_nat (length outRight) = BUFFER_LENGTH_SAMPLES →
  (i < Z.to_nat BUFFER_LENGTH_SAMPLES)%nat → Z.of_nat i < numSamplesDelay →
  ∃ source' queue' outLeft' outRight' t s,
    mixSource scaleByDistance addPhaseScaled numSamplesDelay angleToSourcePositive
      source queue outLeft outRight = Some (source', queue', outLeft', outRight') ∧
    (if angleToSourcePositive then outRight else outLeft) !! i = Some t ∧
    sourceData source
      !! Z.to_nat ((samplePointer source - numSamplesDelay + Z.of_nat i)
                     `mod` lengthInSamples source) = Some s ∧
    (if angleToSourcePositive then outRight' else outLeft') !! i
    = Some (addPhaseScaled t s).
Proof.
  intros Hok Hd Hq Hl Hr Hi Hid.
  destruct (mixSource_spec scaleByDistance addPhaseScaled numSamplesDelay
              angleToSourcePositive source queue outLeft outRight Hok Hd Hq Hl Hr)
    as (frame & source' & m & Hpull & Hmix & Hloop & Hok' & Hdata & Hlen & Hlf & _).
  pose proof Hok as (Hdl & Hbig & Hsp).
  assert (Hll : Z.of_nat (length (if angleToSourcePositive then outLeft else outRight))
                = BUFFER_LENGTH_SAMPLES) by by destruct angleToSourcePositive.
  assert (Hlt : Z.of_nat (length (if angleToSourcePositive then outRight else outLeft))
                = BUFFER_LENGTH_SAMPLES) by by destruct angleToSourcePositive.
  apply mixSamples_trailing_head in Hloop as (_ & _ & _ & _ & Hhead);
    cbn [samplesToQueue leadingOutput trailingOutput];
    [|rewrite ?Hlen, ?Hdata; (done || lia)..].
  destruct (Hhead i Hi Hid) as (t & s & Ht & Hs & Hout).
  cbn [samplesToQueue leadingOutput trailingOutput] in Ht.
  destruct (historyIndex_range numSamplesDelay source' (samplePointer source)) with (i := i)
    as (_ & Hidx); [rewrite ?Hlen; (done || lia)..|].
  cbn zeta in Hs, Hidx. rewrite Hidx, Hlen, Hdata in Hs.
  do 4 eexists. exists t, s. split; [exact Hmix|]. split; [done|]. split; [done|].
  by destruct angleToSourcePositive.
Qed.

Lemma trailing_head_reads_source_history_witness :
  sourceOk (mkSource (seqZ 0 600) 0 600) ∧
  0 ≤ PHASE_DELAY_AT_90 ≤ lengthInSamples (mkSource (seqZ 0 600) 0 600) ∧
  Z.of_nat (length silence) = BUFFER_LENGTH_SAMPLES ∧
  (5 < Z.to_nat BUFFER_LENGTH_SAMPLES)%nat ∧ 5 < PHASE_DELAY_AT_90 ∧
  ∃ source' queue' outLeft' outRight',
    mixSource (scaleExact 1 1) (addScaledExact 1 1) PHASE_DELAY_AT_90 true
      (mkSource (seqZ 0 600) 0 600) silence silence silence
    = Some (source', queue', outLeft', outRight') ∧
    outRight' !! 5%nat = Some 585.
Proof.
  split; [repeat split; vm_compute; discriminate|].
  split; [split; vm_compute; discriminate|]. split; [reflexivity|].
  split; [vm_compute; lia|]. split; [reflexivity|].
  destruct (trailing_head_reads_source_history (scaleExact 1 1) (addScaledExact 1 1)
              PHASE_DELAY_AT_90 true (mkSource (seqZ 0 600) 0 600) silence silence silence 5)
    as (source' & queue' & outLeft' & outRight' & t & s & Hmix & Ht & Hs & Hout);
    [repeat split; vm_compute; discriminate | split; vm_compute; discriminate
    | reflexivity | reflexivity | reflexivity | vm_compute; lia | reflexivity |].
  exists source', queue', outLeft', outRight'. split; [exact Hmix|].
  vm_compute in Ht. injection Ht as <-. vm_compute in Hs. injection Hs as <-.
  exact Hout.
Defined.

Lemma mixSources_returns placed : ∀ queue outLeft outRight,
  Forall (λ ps, sourceOk ps.2 ∧ 0 ≤ delayOf ps.1 ≤ lengthInSamples ps.2) placed →
  Z.of_nat (length queue) = BUFFER_LENGTH_SAMPLES →
  Z.of_nat (length outLeft) = BUFFER_LENGTH_SAMPLES →
  Z.of_nat (length outRight) = BUFFER_LENGTH_SAMPLES →
  ∃ sources' queue' outLeft' outRight',
    mixSources placed queue outLeft outRight
    = Some (sources', queue', outLeft', outRight') ∧
    length sources' = length placed ∧ Forall sourceOk sources' ∧
    Z.of_nat (length queue') = BUFFER_LENGTH_SAMPLES ∧
    Z.of_nat (length outLeft') = BUFFER_LENGTH_SAMPLES ∧
    Z.of_nat (length outRight') = BUFFER_LENGTH_SAMPLES.
Proof.
  induction placed as [|[pl source] rest IH]; intros queue outLeft outRight Hall Hq Hl Hr.
  - exists [], queue, outLeft, outRight. split; [done|]. split; [done|].
    split; [constructor|done].
  - apply Forall_cons in Hall as ((Hok & Hd) & Hall). cbn [fst snd] in Hok, Hd.
    destruct (mixSource_spec (scaleOf pl) (addPhaseOf pl) (delayOf pl) (leftLeads pl)
                source queue outLeft outRight Hok Hd Hq Hl Hr)
      as (frame & source' & m & _ & Hmix & _ & Hok' & _ & _ & _ & Hmq & Hml & Hmt).
    destruct (IH (samplesToQueue m)
                (if leftLeads pl then leadingOutput m else trailingOutput m)
                (if leftLeads pl then trailingOutput m else leadingOutput m) Hall Hmq)
      as (sources' & queue' & outLeft' & outRight' & Hrest & Hls & Hoks & Hq' & Hl' & Hr');
      [by destruct (leftLeads pl)..|].
    exists (source' :: sources'), queue', outLeft', outRight'.
    cbn [mixSources]. rewrite Hmix. cbn [mbind option_bind]. rewrite Hrest.
    cbn [mbind option_bind].
    split; [done|]. split; [cbn; by rewrite Hls|]. split; [by constructor|done].
Qed.

(** X14: the positioned-sources callback never faults.  When every source
    is loaded and every delay lies between 0 and its source's length, the
    callback over any number of sources returns with one-frame channels, and
    every source comes out well formed: the next callback can run on them. *)
Theorem audioCallbackSources_returns placed queue :
  Forall (λ ps, sourceOk ps.2 ∧ 0 ≤ delayOf ps.1 ≤ lengthInSamples ps.2) placed →
  Z.of_nat (length queue) = BUFFER_LENGTH_SAMPLES →
  ∃ sources' queue' outLeft outRight,
    audioCallbackSources placed queue = Some (sources', queue', outLeft, outRight) ∧
    length sources' = length placed ∧ Forall sourceOk sources' ∧
    Z.of_nat (length queue') = BUFFER_LENGTH_SAMPLES ∧
    Z.of_nat (length outLeft) = BUFFER_LENGTH_SAMPLES ∧
    Z.of_nat (length outRight) = BUFFER_LENGTH_SAMPLES.
Proof.
  intros Hall Hq. by apply mixSources_returns.
Qed.

Lemma audioCallbackSources_returns_witness :
  Forall (λ ps, sourceOk ps.2 ∧ 0 ≤ delayOf ps.1 ≤ lengthInSamples ps.2)
    [(mkPlacement (scaleExact 1 4) (addScaledExact 1 8) PHASE_DELAY_AT_90 true, toneSource);
     (mkPlacement (scaleExact 1 2) (addScaledExact 1 2) 0 false, toneSource)] ∧
  Z.of_nat (length silence) = BUFFER_LENGTH_SAMPLES ∧
  ∃ sources' queue' outLeft outRight,
    audioCallbackSources
      [(mkPlacement (scaleExact 1 4) (addScaledExact 1 8) PHASE_DELAY_AT_90 true, toneSource);
       (mkPlacement (scaleExact 1 2) (addScaledExact 1 2) 0 false, toneSource)] silence
    = Some (sources', queue', outLeft, outRight) ∧
    outLeft !! 100%nat = Some 750 ∧ outRight !! 100%nat = Some 750.
Proof.
  assert (Hall : Forall (λ ps, sourceOk ps.2 ∧ 0 ≤ delayOf ps.1 ≤ lengthInSamples ps.2)
    [(mkPlacement (scaleExact 1 4) (addScaledExact 1 8) PHASE_DELAY_AT_90 true, toneSource);
     (mkPlacement (scaleExact 1 2) (addScaledExact 1 2) 0 false, toneSource)]).
  { repeat constructor; vm_compute; discriminate. }
  split; [exact Hall|]. split; [reflexivity|].
  destruct (audioCallbackSources_returns _ silence Hall eq_refl)
    as (sources' & queue' & outLeft & outRight & Hrun & _).
  exists sources', queue', outLeft, outRight. split; [exact Hrun|].
  vm_compute in Hrun. injection Hrun as _ _ <- <-. split; reflexivity.
Defined.

(** * Further properties of session start and end *)

(** X15: [init] never returns [true].  On every path on which it returns,
    failure or success, the value returned is [false]: the success path
    returns [paNoError], which is 0. *)
Theorem init_never_returns_true pa st data :
  match init pa st data with
  | InitReturned _ _ result => result = false
  | InitUndefined _ _ => True
  end.
Proof.
  destruct (init pa st data) as [st' data' result|] eqn:Hinit; [|done].
  by eapply init_returns_false.
Qed.


Lemma terminate_off pa st :
  initialized st = false → terminate pa st = mkTerminated st [] [] true.
Proof. intros Hinit. unfold terminate. by rewrite Hinit. Qed.

Lemma terminate_clears_initialized pa st :
  initialized (t_statics (terminate pa st)) = false.
Proof.
  unfold terminate, terminate_error. destruct (initialized st) eqn:Hinit; [|done].
  cbn [err initialized stderr]. repeat case_decide; reflexivity.
Qed.

(** X17: [terminate] switches the session off, once.  Whatever the state
    and whatever the PortAudio calls return, [initialized] is false after
    [terminate]; on a session that is not initialized, [terminate] calls
    nothing, frees nothing, writes nothing, changes no static and returns
    [true].  So a second [terminate] does nothing and returns [true], also
    when the first one failed half way and left resources behind. *)
Theorem terminate_runs_once pa pa' st :
  initialized (t_statics (terminate pa st)) = false ∧
  (initialized st = false → terminate pa st = mkTerminated st [] [] true) ∧
  terminate pa' (t_statics (terminate pa st))
  = mkTerminated (t_statics (terminate pa st)) [] [] true.
Proof.
  split; [apply terminate_clears_initialized|]. split; [apply terminate_off|].
  apply terminate_off, terminate_clears_initialized.
Qed.

(** X18: what [terminate] does to an initialized session, by outcome.
    [initialized] is false afterwards in every case.  If closing the stream
    fails, nothing else is torn down: the data is not deleted, the library
    is not terminated and the log stays open; the error is written and
    [false] returned.  If closing succeeds and terminating the library
    fails, the data is already deleted and the log stays open.  Only when
    both calls succeed is the log closed and [true] returned. *)
Theorem terminate_outcomes pa st :
  initialized st = true →
  initialized (t_statics (terminate pa st)) = false ∧
  stderr (t_statics (terminate pa st)) = stderr st ∧
  (Pa_CloseStream pa ≠ paNoError →
   t_steps (terminate pa st) = [CloseStream] ∧
   t_stderr (terminate pa st)
   = [TerminationError; TerminationPortAudioError (Pa_CloseStream pa)] ∧
   err (t_statics (terminate pa st)) = Pa_CloseStream pa ∧
   t_ok (terminate pa st) = false) ∧
  (Pa_CloseStream pa = paNoError → Pa_Terminate pa ≠ paNoError →
   t_steps (terminate pa st) = [CloseStream; DeleteData; TerminateLibrary] ∧
   t_stderr (terminate pa st)
   = [TerminationError; TerminationPortAudioError (Pa_Terminate pa)] ∧
   err (t_statics (terminate pa st)) = Pa_Terminate pa ∧
   t_ok (terminate pa st) = false) ∧
  (Pa_CloseStream pa = paNoError → Pa_Terminate pa = paNoError →
   terminate pa st
   = mkTerminated (mkStatics false paNoError (stderr st))
       [CloseStream; DeleteData; TerminateLibrary; CloseLogFile] [] true) ∧
  (t_ok (terminate pa st) = true ↔
   Pa_CloseStream pa = paNoError ∧ Pa_Terminate pa = paNoError).
Proof.
  intros Hinit. unfold terminate, terminate_error. rewrite Hinit. cbn [err initialized stderr].
  destruct (decide (Pa_CloseStream pa ≠ paNoError)) as [Hc|Hc].
  - cbn. repeat split; try done; intros; try done. by destruct H.
  - apply dec_stable in Hc.
    destruct (decide (Pa_Terminate pa ≠ paNoError)) as [Ht|Ht].
    + cbn. repeat split; try done; intros; try done. by destruct H.
    + apply dec_stable in Ht. cbn. rewrite ?Hc, ?Ht. repeat split; try done.
Qed.

Lemma terminate_outcomes_witness :
  initialized (mkStatics true paNoError []) = true ∧
  t_steps (terminate (mkTeardown paInternalError paNoError) (mkStatics true paNoError []))
  = [CloseStream].
Proof.
  split; [reflexivity|].
  destruct (terminate_outcomes (mkTeardown paInternalError paNoError)
              (mkStatics true paNoError []) eq_refl) as (_ & _ & Hclose & _).
  apply Hclose. vm_compute. discriminate.
Defined.

(** X19: start and end together.  After an [init] that failed at
    [Pa_Initialize] in a fresh process ([data] null), [init] returns with
    the session not initialized, and [terminate] then calls nothing and
    returns [true].  After an [init] in which [Pa_Initialize] and
    [Pa_OpenDefaultStream] both succeeded, [init] returns with the session
    initialized, whatever [Pa_StartStream] returned, and [terminate] begins
    by closing the stream. *)
Theorem terminate_after_init pa td st :
  (Pa_Initialize pa ≠ paNoError →
   ∃ st', init pa st NullPointer = InitReturned st' NullPointer false ∧
          terminate td st' = mkTerminated st' [] [] true) ∧
  (∀ data, Pa_Initialize pa = paNoError → Pa_OpenDefaultStream pa = paNoError →
   ∃ st' rest, init pa st data = InitReturned st' ObjectFromNew false ∧
               initialized st' = true ∧
               t_steps (terminate td st') = CloseStream :: rest).
Proof.
  split.
  - intros Hfail. unfold init, init_error. cbn [err]. rewrite decide_True by done.
    eexists. split; [reflexivity|]. by apply terminate_off.
  - intros data H1 H2. unfold init. cbn [err]. rewrite H1, H2.
    rewrite !decide_False by (intros ?; done).
    eexists. unfold terminate, terminate_error. cbn [initialized err stderr].
    repeat case_decide; eexists; by repeat split.
Qed.

(** * Distance attenuation *)

(** No [float] is below itself, a NaN included. *)
Lemma SFltb_irrefl (x : spec_float) : SFltb x x = false.
Proof.
  destruct x as [s|s| |s m e]; unfold SFltb; cbn.
  - reflexivity.
  - by destruct s.
  - reflexivity.
  - destruct s; rewrite Z.compare_refl, Pos.compare_cont_refl; reflexivity.
Qed.


(** [distanceAmpRatio] depends on the distance only through the
    single-precision product [distance * 10]: two distances whose products
    round to the same [float] get the same ratio, and the ratio of the nearer
    one can be the greater only where the rounded products differ. *)
Lemma distanceAmpRatio_follows_rounded_product cbrtf powf d1 d2 :
  (float_mul d1 float_10 = float_mul d2 float_10 →
   distanceAmpRatio cbrtf powf d1 = distanceAmpRatio cbrtf powf d2 ∧
   SFltb (distanceAmpRatio cbrtf powf d2) (distanceAmpRatio cbrtf powf d1) = false) ∧
  (SFltb (distanceAmpRatio cbrtf powf d2) (distanceAmpRatio cbrtf powf d1) = true →
   float_mul d1 float_10 ≠ float_mul d2 float_10).
Proof.
  assert (Heq : float_mul d1 float_10 = float_mul d2 float_10 →
                distanceAmpRatio cbrtf powf d1 = distanceAmpRatio cbrtf powf d2).
  { intros Hprod. unfold distanceAmpRatio. by rewrite Hprod. }
  split.
  - intros Hprod. split; [by apply Heq|]. rewrite (Heq Hprod). apply SFltb_irrefl.
  - intros Hgt Hprod. rewrite (Heq Hprod), SFltb_irrefl in Hgt. discriminate.
Qed.

(** ** The single-precision product with 10 keeps the order *)
























